(** * The page-transition controller of [js/preloader.js]

    The script registers one [DOMContentLoaded] listener.  When it runs it
    looks up the overlay ([.transition-preloader]) and every anchor matched by
    [a[href]:not([target="_blank"])], gives each such anchor a [click]
    listener and gives the window a [load] listener.  This file embeds that
    code over a small model of the host (DOM nodes, the timer queue, the
    clock, assignments to [window.location.href]) and states the properties
    of the controller over it. *)

From Stdlib Require Import String Ascii NArith.
From stdpp Require Import gmap strings list fin_maps sorting.

(** ** Strings *)

(** [String.prototype.startsWith(p)] at position 0. *)
Definition startsWith (s p : string) : bool := String.prefix p s.

(** Line 10 of [preloader.js]: the test that guards the interception. *)
Definition is_internal (href : string) : bool :=
  startsWith href "/" || startsWith href "./" || startsWith href "../"
  || negb (startsWith href "http").

(** ** The document *)

(** A node of the document: its local name ("a", "div"), its attributes other
    than [class], and the ordered tokens of its [class] attribute, which is
    what [Element.classList] shows. *)
Record element := Element {
  localName : string;
  attributes : gmap string string;
  classList : list string
}.

(** The document is the list of its elements in tree order; a node is named by
    its position.  The two selectors of the script have no combinators, so
    the order of the elements is all they need of the tree. *)
Abbreviation document := (list element).
Abbreviation node := nat.

(** [DOMTokenList.add]: appends the token unless it is there already. *)
Definition tokens_add (tok : string) (l : list string) : list string :=
  if bool_decide (tok ∈ l) then l else l ++ [tok].

(** [DOMTokenList.remove]: the token is no longer in the list. *)
Definition tokens_remove (tok : string) (l : list string) : list string :=
  filter (λ c, c ≠ tok) l.

Definition with_classList (f : list string → list string) (e : element) : element :=
  {| localName := localName e; attributes := attributes e; classList := f (classList e) |}.

Definition with_attributes (f : gmap string string → gmap string string)
    (e : element) : element :=
  {| localName := localName e; attributes := f (attributes e); classList := classList e |}.

(** [el.getAttribute(name)]: [None] is JavaScript's [null]. *)
Definition get_attribute (d : document) (n : node) (name : string) : option string :=
  e ← d !! n; attributes e !! name.

(** [el.classList.contains(tok)]. *)
Definition has_class (d : document) (n : node) (tok : string) : bool :=
  match d !! n with
  | Some e => bool_decide (tok ∈ classList e)
  | None => false
  end.

(** The nodes of [d] (numbered from [i]) that satisfy [p], in document order. *)
Fixpoint select_from (p : element → bool) (i : node) (d : document) : list node :=
  match d with
  | [] => []
  | e :: d' => if p e then i :: select_from p (S i) d' else select_from p (S i) d'
  end.

(** [document.querySelectorAll]. *)
Definition querySelectorAll (p : element → bool) (d : document) : list node :=
  select_from p 0 d.

(** [document.querySelector]: the first match, or [null]. *)
Definition querySelector (p : element → bool) (d : document) : option node :=
  head (querySelectorAll p d).

(** The selector [.transition-preloader]. *)
Definition overlay_selector (e : element) : bool :=
  bool_decide ("transition-preloader" ∈ classList e).

(** ASCII lower case, as HTML uses it for attribute names and for the
    values of the attributes that selectors compare without regard to case. *)
Definition ascii_lower (c : ascii) : ascii :=
  let n := N_of_ascii c in
  if ((65 <=? n) && (n <=? 90))%N then ascii_of_N (n + 32) else c.

Fixpoint lower (s : string) : string :=
  match s with
  | EmptyString => EmptyString
  | String c s' => String (ascii_lower c) (lower s')
  end.

(** The target of the element is "_blank": in an HTML document the selector
    [[target="_blank"]] compares the value ASCII case-insensitively. *)
Definition target_blank (e : element) : bool :=
  match attributes e !! "target" with
  | Some v => bool_decide (lower v = "_blank")
  | None => false
  end.

(** The selector [a[href]:not([target="_blank"])]. *)
Definition link_selector (e : element) : bool :=
  bool_decide (localName e = "a")
  && bool_decide (is_Some (attributes e !! "href"))
  && negb (target_blank e).

(** The white space that separates the tokens of a [class] attribute. *)
Definition is_ascii_whitespace (c : ascii) : bool :=
  let n := N_of_ascii c in
  ((n =? 9) || (n =? 10) || (n =? 12) || (n =? 13) || (n =? 32))%N.

(** The pieces of [s] between white space, [cur] being the piece in progress. *)
Fixpoint split_whitespace (s cur : string) : list string :=
  match s with
  | EmptyString => match cur with EmptyString => [] | _ => [cur] end
  | String c s' =>
      if is_ascii_whitespace c
      then match cur with
           | EmptyString => split_whitespace s' EmptyString
           | _ => cur :: split_whitespace s' EmptyString
           end
      else split_whitespace s' (String.append cur (String c EmptyString))
  end.

(** The token list of a [class] attribute with value [v]: its pieces, each
    once, in order. *)
Definition class_tokens (v : string) : list string :=
  foldl (λ l tok, tokens_add tok l) [] (split_whitespace v EmptyString).

(** The class the controller toggles. *)
Definition marker : string := "active".

(** ** The page *)

(** What a timer runs.  The only function the script hands to [setTimeout]
    is [() => { window.location.href = href }], a closure over the string
    [href] of the click that made it. *)
Inductive callback := Navigate (href : string).

(** A pending one-shot timer: the time it is due and what it runs. *)
Abbreviation timer := (N * callback)%type.

(** The state of one page once the [DOMContentLoaded] listener has run.
    [transitionPreloader] and [links] are the two constants of the listener's
    scope, which the handlers close over; [navigations] logs the values
    assigned to [window.location.href], oldest first. *)
Record page := Page {
  dom : document;
  transitionPreloader : option node;
  links : list node;
  clock : N;
  timers : list timer;
  navigations : list string
}.

Definition set_dom (f : document → document) (s : page) : page :=
  {| dom := f (dom s); transitionPreloader := transitionPreloader s;
     links := links s; clock := clock s; timers := timers s;
     navigations := navigations s |}.

Definition set_clock (t : N) (s : page) : page :=
  {| dom := dom s; transitionPreloader := transitionPreloader s;
     links := links s; clock := t; timers := timers s;
     navigations := navigations s |}.

Definition set_timers (f : list timer → list timer) (s : page) : page :=
  {| dom := dom s; transitionPreloader := transitionPreloader s;
     links := links s; clock := clock s; timers := f (timers s);
     navigations := navigations s |}.

Definition set_navigations (f : list string → list string) (s : page) : page :=
  {| dom := dom s; transitionPreloader := transitionPreloader s;
     links := links s; clock := clock s; timers := timers s;
     navigations := f (navigations s) |}.

(** ** Handlers *)

Inductive exn := TypeError.

Inductive completion (A : Type) :=
  | Normal (a : A)
  | Throw (e : exn).
Arguments Normal {A} a.
Arguments Throw {A} e.

(** What a running listener can touch: the page, and the [defaultPrevented]
    flag of the event being dispatched. *)
Record world := World { pg : page; defaultPrevented : bool }.

(** A piece of handler code.  A throw abandons the rest of the handler and
    keeps the effects made so far. *)
Definition js (A : Type) : Type := world → world * completion A.

#[global] Instance js_ret : MRet js := λ A a w, (w, Normal a).
#[global] Instance js_bind : MBind js := λ A B f m w,
  match m w with
  | (w', Normal a) => f a w'
  | (w', Throw e) => (w', Throw e)
  end.

Definition throw {A} (e : exn) : js A := λ w, (w, Throw e).

Definition modify_page (f : page → page) : js unit :=
  λ w, ({| pg := f (pg w); defaultPrevented := defaultPrevented w |}, Normal ()).

(** [link.getAttribute(name)]. *)
Definition getAttribute (n : node) (name : string) : js (option string) :=
  λ w, (w, Normal (get_attribute (dom (pg w)) n name)).

(** [e.preventDefault()]. *)
Definition preventDefault : js unit :=
  λ w, ({| pg := pg w; defaultPrevented := true |}, Normal ()).

(** [x.classList.add(tok)]; reading [classList] of [null] is a [TypeError]. *)
Definition classList_add (x : option node) (tok : string) : js unit :=
  match x with
  | None => throw TypeError
  | Some n => modify_page (set_dom (alter (with_classList (tokens_add tok)) n))
  end.

(** [x.classList.remove(tok)]. *)
Definition classList_remove (x : option node) (tok : string) : js unit :=
  match x with
  | None => throw TypeError
  | Some n => modify_page (set_dom (alter (with_classList (tokens_remove tok)) n))
  end.

(** [setTimeout(cb, delay)]: one more pending timer, due [delay] ms from now. *)
Definition setTimeout (cb : callback) (delay : N) : js unit :=
  modify_page (λ s, set_timers (λ ts, ts ++ [((clock s + delay)%N, cb)]) s).

(** [window.location.href = href]. *)
Definition assign_location (href : string) : js unit :=
  modify_page (set_navigations (λ l, l ++ [href])).

(** The [click] listener of [link] (lines 7 to 18), a closure over [link] and
    over the constant [transitionPreloader]; [href] is read when it runs.
    With [href] null the first [href.startsWith] throws. *)
Definition click_handler (transitionPreloader : option node) (link : node) : js unit :=
  href ← getAttribute link "href";
  match href with
  | None => throw TypeError
  | Some href =>
      if is_internal href then
        preventDefault;;
        classList_add transitionPreloader marker;;
        setTimeout (Navigate href) 500
      else mret ()
  end.

(** The [load] listener (lines 22 to 24). *)
Definition load_handler (transitionPreloader : option node) : js unit :=
  classList_remove transitionPreloader marker.

(** The body of a timer's function (line 15). *)
Definition run_callback (cb : callback) : js unit :=
  match cb with Navigate href => assign_location href end.

(** The [DOMContentLoaded] listener (lines 2 to 25): the two queries, one
    [click] listener per matched anchor, one [load] listener.  Time is
    counted from here. *)
Definition init (d : document) : page :=
  {| dom := d;
     transitionPreloader := querySelector overlay_selector d;
     links := querySelectorAll link_selector d;
     clock := 0%N; timers := []; navigations := [] |}.

(** ** Events *)

(** What the host does to the page: a click that reaches the listeners of
    one element only (its propagation path holds [target] and nothing else
    that could have a listener), the window's [load], time passing, other
    code calling [setAttribute] or [removeAttribute] on an element, and a
    click that travels a propagation path: the element it is dispatched at,
    then that element's ancestors, innermost first.  The listeners are all
    added for the bubble phase, so they run in that order. *)
Inductive event :=
  | Click (target : node)
  | Load
  | Elapse (ms : N)
  | SetAttribute (n : node) (name value : string)
  | RemoveAttribute (n : node) (name : string)
  | ClickAt (path : list node).

(** What one event leaves behind besides the new page: whether a listener
    called [preventDefault], and the exceptions no listener caught. *)
Record report := Report { default_prevented : bool; uncaught : list exn }.

(** Runs the listeners of one event in the order they were added.  A
    listener that throws does not stop the ones after it. *)
Fixpoint run_listeners (hs : list (js unit)) (w : world) : world * list exn :=
  match hs with
  | [] => (w, [])
  | h :: hs' =>
      let '(w1, c) := h w in
      let '(w2, errs) := run_listeners hs' w1 in
      (w2, match c with Normal _ => errs | Throw e => e :: errs end)
  end.

Definition dispatch (hs : list (js unit)) (s : page) : page * report :=
  let '(w, errs) := run_listeners hs {| pg := s; defaultPrevented := false |} in
  (pg w, {| default_prevented := defaultPrevented w; uncaught := errs |}).

(** The [click] listeners on [target]: one for each time [links.forEach]
    visited it. *)
Definition click_listeners (s : page) (target : node) : list (js unit) :=
  click_handler (transitionPreloader s) <$> filter (λ l, l = target) (links s).

Definition is_due (now : N) (t : timer) : Prop := (t.1 ≤ now)%N.

#[global] Instance is_due_dec now t : Decision (is_due now t).
Proof. unfold is_due. apply _. Defined.

(** The listeners that a click meets along its propagation path, in the
    order in which it meets them. *)
Definition path_listeners (s : page) (path : list node) : list (js unit) :=
  path ≫= click_listeners s.

(** An edit of the attribute [name] of node [n]: on an HTML element the
    name is lower-cased; an edit of [class] rewrites the token list with
    [g], an edit of another attribute rewrites the attributes with [f]. *)
Definition edit_attributes (n : node) (name : string)
    (f : gmap string string → gmap string string)
    (g : list string → list string) (s : page) : page :=
  if bool_decide (lower name = "class")
  then set_dom (alter (with_classList g) n) s
  else set_dom (alter (with_attributes f) n) s.

(** One event.  When time passes, the timers that are due run, oldest first,
    and leave the queue. *)
Definition step (ev : event) (s : page) : page * report :=
  match ev with
  | Click target => dispatch (click_listeners s target) s
  | Load => dispatch [load_handler (transitionPreloader s)] s
  | Elapse ms =>
      let now := (clock s + ms)%N in
      let due := filter (is_due now) (timers s) in
      let rest := filter (λ t, ¬ is_due now t) (timers s) in
      dispatch ((λ t : timer, run_callback t.2) <$> due)
               (set_timers (λ _, rest) (set_clock now s))
  | SetAttribute n name value =>
      (edit_attributes n name (insert (lower name) value) (λ _, class_tokens value) s,
       {| default_prevented := false; uncaught := [] |})
  | RemoveAttribute n name =>
      (edit_attributes n name (delete (lower name)) (λ _, []) s,
       {| default_prevented := false; uncaught := [] |})
  | ClickAt path => dispatch (path_listeners s path) s
  end.

(** A run of events, and the reports of its steps. *)
Definition run (tr : list event) (s : page) : page :=
  foldl (λ s ev, (step ev s).1) s tr.

Fixpoint reports (tr : list event) (s : page) : list report :=
  match tr with
  | [] => []
  | ev :: tr' => (step ev s).2 :: reports tr' (step ev s).1
  end.

(** The overlay carries the marker. *)
Definition overlay_active (s : page) : bool :=
  match transitionPreloader s with
  | Some o => has_class (dom s) o marker
  | None => false
  end.

(** A click that the controller intercepts: the anchor has a listener and
    its [href], read now, passes the test of line 10. *)
Definition qualifying (s : page) (i : node) (h : string) : Prop :=
  i ∈ links s ∧ get_attribute (dom s) i "href" = Some h ∧ is_internal h = true.

(** ** Derived notions *)

(** The last clause of the href test, on its own. *)
Definition not_http (h : string) : bool := negb (startsWith h "http").

(** The page after an intercepted click: the overlay has the marker and one
    more timer is pending. *)
Definition intercepted (o : node) (h : string) (s : page) : page :=
  set_timers (λ ts, ts ++ [((clock s + 500)%N, Navigate h)])
    (set_dom (alter (with_classList (tokens_add marker)) o) s).

(** The page after the [load] listener has run. *)
Definition unmarked (o : node) (s : page) : page :=
  set_dom (alter (with_classList (tokens_remove marker)) o) s.

(** The hrefs that a list of timers assigns when they run. *)
Definition targets (l : list timer) : list string :=
  (λ t : timer, match t.2 with Navigate h => h end) <$> l.

(** The page after [ms] milliseconds have passed. *)
Definition elapsed (ms : N) (s : page) : page :=
  {| dom := dom s; transitionPreloader := transitionPreloader s; links := links s;
     clock := (clock s + ms)%N;
     timers := filter (λ t, ¬ is_due (clock s + ms)%N t) (timers s);
     navigations := navigations s ++ targets (filter (is_due (clock s + ms)%N) (timers s)) |}.

(** One timer is due no later than another. *)
Definition earlier (a b : timer) : Prop := (a.1 ≤ b.1)%N.

(** The events whose effects are the controller's own: they run its two
    listeners and its timers. *)
Definition by_controller (ev : event) : bool :=
  match ev with
  | Click _ | Load | Elapse _ | ClickAt _ => true
  | SetAttribute _ _ _ | RemoveAttribute _ _ => false
  end.

(** The events of a burst: clicks that the controller intercepts (judged in
    the state [s] the burst starts from) and time passing. *)
Definition click_or_wait (s : page) (ev : event) : Prop :=
  match ev with
  | Click i => ∃ h, qualifying s i h
  | Elapse _ => True
  | _ => False
  end.



Definition clean (r : report) : Prop := uncaught r = [].

(** [s1] answers the click listeners as [s0] does: same constants, same
    attributes. *)
Definition settled (s0 s1 : page) : Prop :=
  links s1 = links s0
  ∧ transitionPreloader s1 = transitionPreloader s0
  ∧ length (dom s1) = length (dom s0)
  ∧ ∀ j k, get_attribute (dom s1) j k = get_attribute (dom s0) j k.

(** ** Requests for navigation *)

(** The href that a click on node [i] asks the page to navigate to, if any:
    the href that its listener handles to the end. *)
Definition request_at (s : page) (i : node) : list string :=
  match get_attribute (dom s) i "href", transitionPreloader s with
  | Some h, Some _ => if bool_decide (i ∈ links s) && is_internal h then [h] else []
  | _, _ => []
  end.

(** The hrefs that an event asks the page to navigate to: for a click along
    a path, those of the nodes of the path, in order. *)
Definition request (s : page) (ev : event) : list string :=
  match ev with
  | Click i => request_at s i
  | ClickAt path => path ≫= request_at s
  | _ => []
  end.

(** An edit of the [class] attribute. *)
Definition edits_class (ev : event) : bool :=
  match ev with
  | SetAttribute _ name _ | RemoveAttribute _ name => bool_decide (lower name = "class")
  | _ => false
  end.

(** The requests of a run of events, in the order of the events. *)
Fixpoint requested (tr : list event) (s : page) : list string :=
  match tr with
  | [] => []
  | ev :: tr' => request s ev ++ requested tr' (step ev s).1
  end.

(** ** One listener at a time *)

(** The page after the click listener of [l], closed over the overlay [tp],
    has run on page [p]. *)
Definition clicked (tp : option node) (p : page) (l : node) : page :=
  match get_attribute (dom p) l "href", tp with
  | Some h, Some o => if is_internal h then intercepted o h p else p
  | _, _ => p
  end.

(** The href that this listener asks to navigate to, if any. *)
Definition asked (tp : option node) (d : document) (l : node) : list string :=
  match get_attribute d l "href", tp with
  | Some h, Some _ => if is_internal h then [h] else []
  | _, _ => []
  end.

(** The document once the listeners of a click have asked for [hs]: marked
    if any of them did. *)
Definition mark_if (tp : option node) (hs : list string) (d : document) : document :=
  match hs, tp with
  | _ :: _, Some o => alter (with_classList (tokens_add marker)) o d
  | _, _ => d
  end.

(** The event is a click that reaches node [i]: dispatched at it, or at one
    of its descendants. *)
Definition reaches (ev : event) (i : node) : Prop :=
  match ev with
  | Click j => j = i
  | ClickAt path => i ∈ path
  | _ => False
  end.

(** ** Sample pages *)

Definition overlay_div : element :=
  {| localName := "div"; attributes := ∅; classList := ["transition-preloader"] |}.

Definition overlay_div_active : element :=
  {| localName := "div"; attributes := ∅;
     classList := ["transition-preloader"; "active"] |}.

Definition anchor (href : string) : element :=
  {| localName := "a"; attributes := {["href" := href]}; classList := [] |}.

Definition anchor_blank (href : string) : element :=
  {| localName := "a"; attributes := <["target" := "_blank"]> {["href" := href]};
     classList := [] |}.

(** An overlay, an internal link, the same link opening a new tab, and an
    external link. *)
Definition sample_page : document :=
  [overlay_div; anchor "/about"; anchor_blank "/about"; anchor "https://example.com"].

(** The same page served with the overlay already marked. *)
Definition marked_page : document :=
  [overlay_div_active; anchor "/about"].

(** A page without the overlay. *)
Definition bare_page : document := [anchor "/about"; anchor "#section"].

(** * The usage analyzer of [js/analyze-webflow.js]

    The script wraps [window.Webflow] in a proxy and patches
    [EventTarget.prototype.addEventListener] so that every property read,
    every call of a function of [Webflow] and every listener registration
    is noted in [usageData]; [printUsageReport] digests the notes.  What is
    embedded is the bookkeeping: the writes to [usageData] and the data that
    the report computes.  What the script prints on the console is left out,
    and the values that the host supplies ([Date.now()], the filtered stack
    trace, [document.readyState], [typeof] of the arguments, the name of the
    target) are arguments of the operations. *)

(** The key of a property read: a string or a symbol. *)
Inductive propkey :=
  | StringKey (name : string)
  | SymbolKey.

(** The note of one call (lines 63 to 69). *)
Module call.
Record t := Make {
  timestamp : Z;
  relativeTime : Z;
  argTypes : list string;
  stack : list string;
  pagePhase : string
}.
End call.

(** The note of one listener registration (lines 90 to 96); [stack] is
    [stack[0]], undefined when the filtered trace is empty. *)
Module listener.
Record t := Make {
  type : string;
  timestamp : Z;
  relativeTime : Z;
  stack : option string;
  target : string
}.
End listener.

(** [usageData] (lines 14 to 20).  [functionCalls] holds the own properties
    of the object; [propertyAccess] is a [Set] of strings, kept in insertion
    order; [events] is a [Set] of objects, each made afresh by a literal, so
    that no two are the same member: a list. *)
Record usageData := UsageData {
  functionCalls : gmap string (list call.t);
  propertyAccess : list string;
  events : list listener.t;
  startTime : Z;
  pageLoadTime : option Z
}.

(** The names that every plain object inherits from [Object.prototype]: a
    read of [o[name]] on an object without such an own property finds the
    inherited member, which is not an array and is truthy. *)
Definition Object_prototype : list string :=
  ["constructor"; "__defineGetter__"; "__defineSetter__"; "hasOwnProperty";
   "__lookupGetter__"; "__lookupSetter__"; "isPrototypeOf";
   "propertyIsEnumerable"; "toString"; "valueOf"; "__proto__"; "toLocaleString"].

(** [Set.prototype.add] on a set of strings. *)
Definition Set_add (x : string) (l : list string) : list string :=
  if bool_decide (x ∈ l) then l else l ++ [x].

(** [if (!o[key]) o[key] = []; o[key].push(x)] on a plain object [o] whose
    own properties are lists (lines 60 to 63 and 134 to 137): with no own
    property and an inherited member under [key], [push] is not a function. *)
Definition push_under {A} (key : string) (x : A) (o : gmap string (list A))
    : completion (gmap string (list A)) :=
  match o !! key with
  | Some l => Normal (<[key := l ++ [x]]> o)
  | None =>
      if bool_decide (key ∈ Object_prototype) then Throw TypeError
      else Normal (<[key := [x]]> o)
  end.

(** The [get] trap of the proxy (lines 37 to 45), as far as [usageData] goes.
    The template literal of line 42 converts [prop] to a string, which
    throws for a symbol, before anything is noted. *)
Definition proxy_get (prop : propkey) (u : usageData) : usageData * completion unit :=
  match prop with
  | SymbolKey => (u, Throw TypeError)
  | StringKey name =>
      ({| functionCalls := functionCalls u;
          propertyAccess := Set_add name (propertyAccess u);
          events := events u; startTime := startTime u;
          pageLoadTime := pageLoadTime u |}, Normal ())
  end.

(** The function that the trap returns for a function-valued property
    (lines 49 to 72), up to the call of the original: [Normal] means that
    [value.apply(this, args)] is reached. *)
Definition wrapper_call (prop : string) (now : Z) (args trace : list string)
    (readyState : string) (u : usageData) : usageData * completion unit :=
  let note :=
    {| call.timestamp := now; call.relativeTime := (now - startTime u)%Z;
       call.argTypes := args; call.stack := trace; call.pagePhase := readyState |} in
  match push_under prop note (functionCalls u) with
  | Normal calls =>
      ({| functionCalls := calls; propertyAccess := propertyAccess u;
          events := events u; startTime := startTime u;
          pageLoadTime := pageLoadTime u |}, Normal ())
  | Throw e => (u, Throw e)
  end.

(** The patched [addEventListener] (lines 81 to 99), up to the call of the
    original. *)
Definition addEventListener_patched (type : string) (now : Z) (trace : list string)
    (target : string) (u : usageData) : usageData :=
  {| functionCalls := functionCalls u; propertyAccess := propertyAccess u;
     events := events u ++
       [{| listener.type := type; listener.timestamp := now;
           listener.relativeTime := (now - startTime u)%Z;
           listener.stack := head trace; listener.target := target |}];
     startTime := startTime u; pageLoadTime := pageLoadTime u |}.

(** [usageData] once the script has run: created at time [t0] (line 18);
    the script's own [load] listener, added on [window] at time [t1] through
    the patched [addEventListener] (line 176), is already noted. *)
Definition analyzer_start (t0 t1 : Z) (trace : list string) : usageData :=
  addEventListener_patched "load" t1 trace "[object Window]"
    {| functionCalls := ∅; propertyAccess := []; events := [];
       startTime := t0; pageLoadTime := None |}.

(** The first line of the [load] listener (line 177). *)
Definition note_load (now : Z) (u : usageData) : usageData :=
  {| functionCalls := functionCalls u; propertyAccess := propertyAccess u;
     events := events u; startTime := startTime u;
     pageLoadTime := Some (now - startTime u)%Z |}.

(** [summary] and [details] of the exported data (lines 155 to 169). *)
Module summary.
Record t := Make {
  totalTime : Z;
  pageLoadTime : option Z;
  totalFunctionCalls : nat;
  totalEventListeners : nat;
  unusedFunctions : list string
}.
End summary.

Module details.
Record t := Make {
  functionCalls : gmap string (list call.t);
  propertyAccess : list string;
  events : list listener.t
}.
End details.

(** What [printUsageReport] works out: the exported data, and the listeners
    grouped by type, which it only prints. *)
Record usageReport := UsageReport {
  exported_summary : summary.t;
  exported_details : details.t;
  eventsByType : gmap string (list listener.t)
}.

(** The loop of lines 133 to 138. *)
Fixpoint group_events (evs : list listener.t) (g : gmap string (list listener.t))
    : completion (gmap string (list listener.t)) :=
  match evs with
  | [] => Normal g
  | e :: evs' =>
      match push_under (listener.type e) e g with
      | Normal g' => group_events evs' g'
      | Throw x => Throw x
      end
  end.

(** [Object.values(functionCalls).reduce((sum, calls) => sum + calls.length, 0)]. *)
Definition count_calls (m : gmap string (list call.t)) : nat :=
  map_fold (λ _ calls sum, sum + length calls) 0 m.

(** [printUsageReport] (lines 102 to 173) at time [now], where
    [definedFunctions] are the names of the own properties of the original
    [Webflow] object that are functions.  The loop of lines 114 to 129 reads
    [calls[0].relativeTime], which throws on an empty list. *)
Definition printUsageReport (now : Z) (definedFunctions : list string)
    (u : usageData) : completion usageReport :=
  if negb (bool_decide (map_Forall (λ _ (calls : list call.t), 0 < length calls)
                                   (functionCalls u)))
  then Throw TypeError
  else
    match group_events (events u) ∅ with
    | Throw x => Throw x
    | Normal groups =>
        let unusedFunctions :=
          filter (λ f, functionCalls u !! f = None) definedFunctions in
        Normal
          {| exported_summary :=
               {| summary.totalTime := (now - startTime u)%Z;
                  summary.pageLoadTime := pageLoadTime u;
                  summary.totalFunctionCalls := count_calls (functionCalls u);
                  summary.totalEventListeners := length (events u);
                  summary.unusedFunctions := unusedFunctions |};
             exported_details :=
               {| details.functionCalls := functionCalls u;
                  details.propertyAccess := propertyAccess u;
                  details.events := events u |};
             eventsByType := groups |}
    end.

(** What happens to [usageData] after the script has run. *)
Inductive usage :=
  | Get (prop : propkey)
  | Invoke (prop : string) (now : Z) (args trace : list string) (readyState : string)
  | Listen (type : string) (now : Z) (trace : list string) (target : string)
  | PageLoaded (now : Z).

Definition note (op : usage) (u : usageData) : usageData :=
  match op with
  | Get prop => (proxy_get prop u).1
  | Invoke prop now args trace readyState => (wrapper_call prop now args trace readyState u).1
  | Listen type now trace target => addEventListener_patched type now trace target u
  | PageLoaded now => note_load now u
  end.

Definition replay (ops : list usage) (u : usageData) : usageData :=
  foldl (λ u op, note op u) u ops.

(** The notes that the calls of [prop] in a history leave, oldest first. *)
Fixpoint calls_of (prop : string) (t0 : Z) (ops : list usage) : list call.t :=
  match ops with
  | [] => []
  | Invoke p now args trace readyState :: ops' =>
      if bool_decide (p = prop)
      then {| call.timestamp := now; call.relativeTime := (now - t0)%Z;
              call.argTypes := args; call.stack := trace;
              call.pagePhase := readyState |} :: calls_of prop t0 ops'
      else calls_of prop t0 ops'
  | _ :: ops' => calls_of prop t0 ops'
  end.

(** The names read through the proxy in a history, in the order of the reads. *)
Fixpoint reads_of (ops : list usage) : list string :=
  match ops with
  | [] => []
  | Get (StringKey name) :: ops' => name :: reads_of ops'
  | _ :: ops' => reads_of ops'
  end.

(** The listener registrations of a history, in order. *)
Fixpoint listens_of (t0 : Z) (ops : list usage) : list listener.t :=
  match ops with
  | [] => []
  | Listen type now trace target :: ops' =>
      {| listener.type := type; listener.timestamp := now;
         listener.relativeTime := (now - t0)%Z;
         listener.stack := head trace; listener.target := target |}
      :: listens_of t0 ops'
  | _ :: ops' => listens_of t0 ops'
  end.

(** The calls of a history that get as far as the original function. *)
Fixpoint completed_calls (ops : list usage) : nat :=
  match ops with
  | [] => 0
  | Invoke p _ _ _ _ :: ops' =>
      if bool_decide (p ∈ Object_prototype) then completed_calls ops'
      else S (completed_calls ops')
  | _ :: ops' => completed_calls ops'
  end.

(** The value of [o[key]] for a list that exists only once something has
    been pushed under [key]. *)
Definition as_property {A} (l : list A) : option (list A) :=
  match l with
  | [] => None
  | _ => Some l
  end.

(** The note that the script's own [load] listener leaves. *)
Definition own_listener (t0 t1 : Z) (trace : list string) : listener.t :=
  {| listener.type := "load"; listener.timestamp := t1;
     listener.relativeTime := (t1 - t0)%Z;
     listener.stack := head trace; listener.target := "[object Window]" |}.

(** The groups made so far are those of the listeners seen so far. *)
Definition groups_of (seen : list listener.t) (g : gmap string (list listener.t)) : Prop :=
  ∀ t, g !! t = as_property (filter (λ e, listener.type e = t) seen).

(** A history on a page: two listeners, three calls, one read without a call. *)
Definition sample_usage : list usage :=
  [Listen "click" 15 ["at init (preloader.js:7)"] "A";
   Get (StringKey "ready"); Invoke "ready" 30 ["function"] [] "loading";
   Get (StringKey "destroy");
   Get SymbolKey;
   Listen "click" 16 [] "A";
   Invoke "ready" 45 [] [] "interactive";
   Get (StringKey "push"); Invoke "push" 50 ["function"] [] "interactive";
   PageLoaded 900].

(** ** Selectors *)

Section Selectors.
Variable p : element → bool.

Lemma select_from_spec (d : document) (i j : node) :
  j ∈ select_from p i d ↔ ∃ e, i ≤ j ∧ d !! (j - i) = Some e ∧ p e = true.
Proof.
  revert i; induction d as [|e d IH]; intros i; simpl.
  - split; [intros H; inversion H | intros (x & _ & H & _); done].
  - assert (Hrec : j ∈ select_from p (S i) d ↔
              ∃ x, i ≤ j ∧ (e :: d) !! (j - i) = Some x ∧ p x = true ∧ j ≠ i).
    { rewrite IH. split.
      - intros (x & Hle & Hx & Hp). exists x. repeat split; [lia| |done|lia].
        replace (j - i) with (S (j - S i)) by lia. done.
      - intros (x & Hle & Hx & Hp & Hne). exists x. repeat split; [lia| |done].
        replace (j - i) with (S (j - S i)) in Hx by lia. done. }
    destruct (p e) eqn:Hpe.
    + rewrite elem_of_cons, Hrec. split.
      * intros [->|(x & ? & ? & ? & ?)]; [|by eauto].
        exists e. rewrite Nat.sub_diag. done.
      * intros (x & Hle & Hx & Hp). destruct (decide (j = i)) as [->|]; [by left|].
        right; eauto 6.
    + rewrite Hrec. split; [intros (x & ? & ? & ? & ?); by eauto|].
      intros (x & Hle & Hx & Hp). exists x. repeat split; try done.
      intros ->. rewrite Nat.sub_diag in Hx. simpl in Hx. congruence.
Qed.

Lemma select_from_NoDup (d : document) (i : node) : NoDup (select_from p i d).
Proof.
  revert i; induction d as [|e d IH]; intros i; simpl; [constructor|].
  destruct (p e); [|done]. constructor; [|done].
  rewrite select_from_spec. intros (? & ? & _). lia.
Qed.

Lemma querySelectorAll_spec (d : document) (j : node) :
  j ∈ querySelectorAll p d ↔ ∃ e, d !! j = Some e ∧ p e = true.
Proof.
  unfold querySelectorAll. rewrite select_from_spec.
  rewrite Nat.sub_0_r. split; intros (e & H); exists e; intuition lia.
Qed.

Lemma querySelectorAll_NoDup (d : document) : NoDup (querySelectorAll p d).
Proof. apply select_from_NoDup. Qed.

Lemma querySelector_Some (d : document) (o : node) :
  querySelector p d = Some o → ∃ e, d !! o = Some e ∧ p e = true.
Proof.
  unfold querySelector. intros H. apply querySelectorAll_spec.
  destruct (querySelectorAll p d); simplify_eq/=. by left.
Qed.

Lemma querySelector_None (d : document) :
  querySelector p d = None ↔ ∀ e, e ∈ d → p e = false.
Proof.
  unfold querySelector. split.
  - intros H e [j Hj]%list_elem_of_lookup.
    destruct (p e) eqn:Hp; [|done].
    assert (Hin : j ∈ querySelectorAll p d) by (apply querySelectorAll_spec; eauto).
    destruct (querySelectorAll p d); [inversion Hin | done].
  - intros H. destruct (querySelectorAll p d) as [|j l] eqn:Hq; [done|].
    assert (Hin : j ∈ querySelectorAll p d) by (rewrite Hq; by left).
    apply querySelectorAll_spec in Hin as (e & He & Hp).
    rewrite (H e) in Hp; [done|]. apply list_elem_of_lookup; eauto.
Qed.
End Selectors.

(** ** The classification of an href *)

Lemma startsWith_cons (a b : ascii) (p s : string) :
  startsWith (String b s) (String a p) = if ascii_dec a b then startsWith s p else false.
Proof. reflexivity. Qed.

Lemma startsWith_nil (s : string) : startsWith s "" = true.
Proof. by destruct s. Qed.

(** The first character decides: an href that starts with [c] does not start
    with "http" unless [c] is "h". *)
Lemma first_char_not_http (c : ascii) (h : string) :
  c ≠ "h"%char → startsWith h (String c "") = true → startsWith h "http" = false.
Proof.
  intros Hc. destruct h as [|a h]; [done|].
  rewrite !startsWith_cons.
  destruct (ascii_dec c a) as [<-|]; [|done].
  destruct (ascii_dec "h" c) as [E|]; [by destruct Hc|done].
Qed.

Lemma startsWith_slash_not_http (h : string) :
  startsWith h "/" = true → startsWith h "http" = false.
Proof. by apply first_char_not_http. Qed.

Lemma startsWith_dot_not_http (h : string) :
  startsWith h "." = true → startsWith h "http" = false.
Proof. by apply first_char_not_http. Qed.

(** A longer prefix gives its first character. *)
Lemma startsWith_first (c : ascii) (p h : string) :
  startsWith h (String c p) = true → startsWith h (String c "") = true.
Proof.
  destruct h as [|a h]; [done|]. rewrite !startsWith_cons.
  destruct (ascii_dec c a); [|done]. intros _. apply startsWith_nil.
Qed.

Lemma is_internal_not_http (h : string) : is_internal h = not_http h.
Proof.
  assert (H1 := startsWith_slash_not_http h).
  assert (H2 : startsWith h "./" = true → startsWith h "http" = false)
    by (intros ?%startsWith_first; by apply startsWith_dot_not_http).
  assert (H3 : startsWith h "../" = true → startsWith h "http" = false)
    by (intros ?%startsWith_first; by apply startsWith_dot_not_http).
  unfold is_internal, not_http.
  destruct (startsWith h "/") eqn:E1; [by rewrite H1|].
  destruct (startsWith h "./") eqn:E2; [by rewrite H2|].
  destruct (startsWith h "../") eqn:E3; [by rewrite H3|]. done.
Qed.

(** The hrefs that the controller treats as internal include the relative
    ones and the empty, [mailto:] and fragment-only ones; an upper-case
    scheme passes the test too. *)
Example internal_hrefs :
  Forall (λ h, is_internal h = true)
    ["/about"; "./x.html"; "../y"; ""; "mailto:a@b.com"; "#section"; "HTTP://EXAMPLE.COM"]
  ∧ Forall (λ h, is_internal h = false)
      ["http://example.com"; "https://example.com"; "http"; "httpfoo"].
Proof. split; repeat constructor. Qed.

(** C4. For every href [h], the test of line 10 (starts with "/", or with
    "./", or with "../", or does not start with "http") has the same value
    as its last clause alone, and each of the first three clauses implies
    the last. *)
Theorem is_internal_iff_not_http (h : string) :
  is_internal h = not_http h
  ∧ (is_internal h = true ↔ startsWith h "http" = false)
  ∧ (startsWith h "/" = true → not_http h = true)
  ∧ (startsWith h "./" = true → not_http h = true)
  ∧ (startsWith h "../" = true → not_http h = true).
Proof.
  assert (H := is_internal_not_http h).
  split; [done|]. split; [|repeat split].
  - rewrite H. unfold not_http. by destruct (startsWith h "http").
  - intros E. rewrite <- H. unfold is_internal. by rewrite E.
  - intros E. rewrite <- H. unfold is_internal. rewrite E. by destruct (startsWith h "/").
  - intros E. rewrite <- H. unfold is_internal. rewrite E.
    by destruct (startsWith h "/"), (startsWith h "./").
Qed.

(** ** What one event does *)

Lemma filter_all {A} (P : A → Prop) `{∀ x, Decision (P x)} (l : list A) :
  Forall P l → filter P l = l.
Proof.
  induction 1 as [|x l Hx Hl IH]; [done|]. rewrite filter_cons_True by done. by f_equal.
Qed.

Lemma filter_none {A} (P : A → Prop) `{∀ x, Decision (P x)} (l : list A) :
  Forall (λ x, ¬ P x) l → filter P l = [].
Proof.
  induction 1 as [|x l Hx Hl IH]; [done|]. by rewrite filter_cons_False.
Qed.

Lemma filter_eq_absent (l : list node) (i : node) :
  i ∉ l → filter (λ x, x = i) l = [].
Proof.
  induction l as [|x l IH]; [done|].
  intros [Hx Hl]%not_elem_of_cons. rewrite filter_cons_False by done. auto.
Qed.

Lemma filter_eq_NoDup (l : list node) (i : node) :
  NoDup l → i ∈ l → filter (λ x, x = i) l = [i].
Proof.
  induction 1 as [|x l Hx Hl IH]; [by intros ?%elem_of_nil|].
  intros [->|Hi]%elem_of_cons.
  - rewrite filter_cons_True by done. f_equal. by apply filter_eq_absent.
  - rewrite filter_cons_False by (by intros ->). auto.
Qed.

Section OneListener.
Variables (s : page) (i : node).
Hypothesis Hnodup : NoDup (links s).
Hypothesis Hin : i ∈ links s.

Lemma click_listeners_one :
  click_listeners s i = [click_handler (transitionPreloader s) i].
Proof. unfold click_listeners. by rewrite filter_eq_NoDup. Qed.

Lemma click_null_href :
  get_attribute (dom s) i "href" = None →
  step (Click i) s = (s, {| default_prevented := false; uncaught := [TypeError] |}).
Proof.
  intros H. simpl. rewrite click_listeners_one.
  unfold dispatch, click_handler; simpl.
  unfold mbind, js_bind, getAttribute; simpl. by rewrite H.
Qed.

Lemma click_external (h : string) :
  get_attribute (dom s) i "href" = Some h → is_internal h = false →
  step (Click i) s = (s, {| default_prevented := false; uncaught := [] |}).
Proof.
  intros H Hh. simpl. rewrite click_listeners_one.
  unfold dispatch, click_handler; simpl.
  unfold mbind, js_bind, getAttribute; simpl. by rewrite H, Hh.
Qed.

Lemma click_internal_no_overlay (h : string) :
  get_attribute (dom s) i "href" = Some h → is_internal h = true →
  transitionPreloader s = None →
  step (Click i) s = (s, {| default_prevented := true; uncaught := [TypeError] |}).
Proof.
  intros H Hh Ho. simpl. rewrite click_listeners_one.
  unfold dispatch, click_handler; simpl.
  unfold mbind, js_bind, getAttribute; simpl. by rewrite H, Hh, Ho.
Qed.

Lemma click_internal_overlay (h : string) (o : node) :
  get_attribute (dom s) i "href" = Some h → is_internal h = true →
  transitionPreloader s = Some o →
  step (Click i) s
  = (intercepted o h s, {| default_prevented := true; uncaught := [] |}).
Proof.
  intros H Hh Ho. simpl. rewrite click_listeners_one.
  unfold dispatch, click_handler; simpl.
  unfold mbind, js_bind, getAttribute; simpl. by rewrite H, Hh, Ho.
Qed.
End OneListener.

Lemma click_no_listener (s : page) (i : node) :
  i ∉ links s →
  step (Click i) s = (s, {| default_prevented := false; uncaught := [] |}).
Proof.
  intros Hi. simpl. unfold click_listeners. by rewrite filter_eq_absent.
Qed.

Lemma load_overlay (s : page) (o : node) :
  transitionPreloader s = Some o →
  step Load s = (unmarked o s, {| default_prevented := false; uncaught := [] |}).
Proof. intros Ho. simpl. unfold dispatch, load_handler. by rewrite Ho. Qed.

Lemma load_no_overlay (s : page) :
  transitionPreloader s = None →
  step Load s = (s, {| default_prevented := false; uncaught := [TypeError] |}).
Proof. intros Ho. simpl. unfold dispatch, load_handler. by rewrite Ho. Qed.

Lemma run_callbacks (l : list timer) (w : world) :
  run_listeners ((λ t : timer, run_callback t.2) <$> l) w
  = ({| pg := set_navigations (λ n, n ++ targets l) (pg w);
        defaultPrevented := defaultPrevented w |}, []).
Proof.
  revert w; induction l as [|[due [h]] l IH]; intros [[d o ls c ts ns] b]; simpl.
  - unfold set_navigations; simpl. by rewrite app_nil_r.
  - rewrite IH. unfold set_navigations; simpl. by rewrite <- app_assoc.
Qed.

Lemma elapse_step (ms : N) (s : page) :
  step (Elapse ms) s = (elapsed ms s, {| default_prevented := false; uncaught := [] |}).
Proof. simpl. unfold dispatch. by rewrite run_callbacks. Qed.

(** A click either leaves the page as it is, or is intercepted. *)
Lemma click_cases (s : page) (i : node) :
  NoDup (links s) →
  (∃ r, step (Click i) s = (s, r)
        ∧ (default_prevented r = true → uncaught r = [TypeError]))
  ∨ (∃ o h, i ∈ links s ∧ get_attribute (dom s) i "href" = Some h
            ∧ is_internal h = true ∧ transitionPreloader s = Some o
            ∧ step (Click i) s
              = (intercepted o h s, {| default_prevented := true; uncaught := [] |})).
Proof.
  intros Hnd. destruct (decide (i ∈ links s)) as [Hi|Hi].
  - destruct (get_attribute (dom s) i "href") as [h|] eqn:Hh.
    + destruct (is_internal h) eqn:Hint.
      * destruct (transitionPreloader s) as [o|] eqn:Ho.
        -- right. exists o, h. repeat split; try done.
           by apply click_internal_overlay.
        -- left. eexists. split; [by eapply click_internal_no_overlay|done].
      * left. eexists. split; [by eapply click_external|done].
    + left. eexists. split; [by apply click_null_href|done].
  - left. eexists. split; [by apply click_no_listener|done].
Qed.

Lemma load_cases (s : page) :
  (transitionPreloader s = None
   ∧ step Load s = (s, {| default_prevented := false; uncaught := [TypeError] |}))
  ∨ (∃ o, transitionPreloader s = Some o
          ∧ step Load s = (unmarked o s, {| default_prevented := false; uncaught := [] |})).
Proof.
  destruct (transitionPreloader s) as [o|] eqn:Ho.
  - right. exists o. split; [done|]. by apply load_overlay.
  - left. split; [done|]. by apply load_no_overlay.
Qed.

Lemma tokens_add_elem (tok : string) (l : list string) : tok ∈ tokens_add tok l.
Proof.
  unfold tokens_add. case_bool_decide; [done|].
  apply elem_of_app. right. by apply list_elem_of_singleton.
Qed.


Lemma tokens_add_idem (tok : string) (l : list string) :
  tokens_add tok (tokens_add tok l) = tokens_add tok l.
Proof.
  unfold tokens_add at 1. by rewrite bool_decide_eq_true_2 by apply tokens_add_elem.
Qed.


Lemma get_attribute_classes (f : list string → list string) (d : document)
    (o j : node) (k : string) :
  get_attribute (alter (with_classList f) o d) j k = get_attribute d j k.
Proof.
  unfold get_attribute. destruct (decide (o = j)) as [->|Hne].
  - rewrite list_lookup_alter_eq. by destruct (d !! j).
  - by rewrite list_lookup_alter_ne.
Qed.


Lemma alter_idem (f : element → element) (o : node) (d : document) :
  (∀ e, f (f e) = f e) → alter f o (alter f o d) = alter f o d.
Proof.
  intros Hf. apply list_eq. intros j. destruct (decide (o = j)) as [->|Hne].
  - rewrite !list_lookup_alter_eq. destruct (d !! j); simpl; [|done]. by rewrite Hf.
  - by rewrite !list_lookup_alter_ne.
Qed.


Lemma marking_idem (o : node) (d : document) :
  alter (with_classList (tokens_add marker)) o
    (alter (with_classList (tokens_add marker)) o d)
  = alter (with_classList (tokens_add marker)) o d.
Proof.
  apply alter_idem. intros [t a c]. unfold with_classList; simpl.
  by rewrite tokens_add_idem.
Qed.


(** *** Clicks along a path *)

Lemma click_handler_page (tp : option node) (l : node) (w : world) :
  pg (click_handler tp l w).1 = clicked tp (pg w) l.
Proof.
  unfold click_handler, clicked, mbind, js_bind, getAttribute; simpl.
  destruct (get_attribute (dom (pg w)) l "href") as [h|]; [|done].
  destruct (is_internal h); [|by destruct tp]. by destruct tp.
Qed.

Lemma click_handlers_page (tp : option node) (ls : list node) (w : world) :
  pg (run_listeners (click_handler tp <$> ls) w).1 = foldl (clicked tp) (pg w) ls.
Proof.
  revert w. induction ls as [|l ls IH]; intros w; [done|].
  rewrite fmap_cons. cbn [run_listeners foldl].
  assert (H1 := click_handler_page tp l w).
  destruct (click_handler tp l w) as [w1 c].
  assert (H2 := IH w1).
  destruct (run_listeners (click_handler tp <$> ls) w1) as [w2 errs].
  simpl in *. by rewrite H2, H1.
Qed.

Lemma path_listeners_filter (s : page) (path : list node) :
  NoDup (links s) →
  path_listeners s path
  = click_handler (transitionPreloader s) <$> filter (λ n, n ∈ links s) path.
Proof.
  intros Hnd. unfold path_listeners. induction path as [|n path IH]; [done|].
  rewrite bind_cons, IH. unfold click_listeners at 1.
  destruct (decide (n ∈ links s)) as [Hn|Hn].
  - by rewrite filter_eq_NoDup, filter_cons_True.
  - by rewrite filter_eq_absent, filter_cons_False.
Qed.

Lemma dispatch_page (hs : list (js unit)) (s : page) :
  (dispatch hs s).1 = pg (run_listeners hs {| pg := s; defaultPrevented := false |}).1.
Proof. unfold dispatch. by destruct (run_listeners hs _). Qed.

Lemma clickat_page (s : page) (path : list node) :
  NoDup (links s) →
  (step (ClickAt path) s).1
  = foldl (clicked (transitionPreloader s)) s (filter (λ n, n ∈ links s) path).
Proof.
  intros Hnd. simpl. by rewrite dispatch_page, path_listeners_filter, click_handlers_page.
Qed.

(** A click that reaches one element is a click along the path that holds
    that element alone. *)
Lemma click_as_path (s : page) (i : node) :
  step (Click i) s = step (ClickAt [i]) s.
Proof. simpl. unfold path_listeners. simpl. by rewrite app_nil_r. Qed.

Lemma request_path (s : page) (path : list node) :
  request s (ClickAt path)
  = filter (λ n, n ∈ links s) path ≫= asked (transitionPreloader s) (dom s).
Proof.
  simpl. induction path as [|n path IH]; [done|]. rewrite bind_cons, IH.
  unfold request_at, asked. destruct (decide (n ∈ links s)) as [Hn|Hn].
  - rewrite filter_cons_True, bind_cons, (bool_decide_eq_true_2 _ Hn) by done. done.
  - rewrite filter_cons_False, (bool_decide_eq_false_2 _ Hn) by done.
    by destruct (get_attribute (dom s) n "href"), (transitionPreloader s).
Qed.

Lemma asked_classes (tp : option node) (f : list string → list string)
    (o : node) (d : document) (l : node) :
  asked tp (alter (with_classList f) o d) l = asked tp d l.
Proof. unfold asked. by rewrite get_attribute_classes. Qed.

Lemma clicked_cases (tp : option node) (p : page) (l : node) :
  (asked tp (dom p) l = [] ∧ clicked tp p l = p)
  ∨ (∃ o h, tp = Some o ∧ asked tp (dom p) l = [h] ∧ clicked tp p l = intercepted o h p).
Proof.
  unfold asked, clicked.
  destruct (get_attribute (dom p) l "href") as [h|]; [|by left].
  destruct tp as [o|]; [|by left].
  destruct (is_internal h); [|by left]. right. by exists o, h.
Qed.

Lemma asked_marked (o : node) (ls : list node) (d : document) :
  ls ≫= asked (Some o) (alter (with_classList (tokens_add marker)) o d)
  = ls ≫= asked (Some o) d.
Proof.
  induction ls as [|x ls IH]; [done|]. by rewrite !bind_cons, asked_classes, IH.
Qed.

(** What the listeners of [ls], run one after the other, do to a page. *)
Lemma clicked_fold (tp : option node) (ls : list node) (p : page) :
  links (foldl (clicked tp) p ls) = links p
  ∧ transitionPreloader (foldl (clicked tp) p ls) = transitionPreloader p
  ∧ clock (foldl (clicked tp) p ls) = clock p
  ∧ navigations (foldl (clicked tp) p ls) = navigations p
  ∧ length (dom (foldl (clicked tp) p ls)) = length (dom p)
  ∧ timers (foldl (clicked tp) p ls)
    = timers p ++ ((λ h, ((clock p + 500)%N, Navigate h)) <$> (ls ≫= asked tp (dom p)))
  ∧ dom (foldl (clicked tp) p ls) = mark_if tp (ls ≫= asked tp (dom p)) (dom p).
Proof.
  destruct tp as [o|].
  - revert p. induction ls as [|l ls IH]; intros p.
    + simpl. by rewrite app_nil_r.
    + cbn [foldl]. rewrite !bind_cons.
      destruct (IH (clicked (Some o) p l)) as (H1 & H2 & H3 & H4 & H5 & H6 & H7).
      rewrite H1, H2, H3, H4, H5, H6, H7. clear IH H1 H2 H3 H4 H5 H6 H7.
      destruct (clicked_cases (Some o) p l) as [(-> & ->)|(o' & h & [= <-] & -> & ->)];
        [done|].
      simpl. rewrite asked_marked, length_alter, <- app_assoc. repeat split.
      unfold mark_if. destruct (ls ≫= asked (Some o) (dom p)); [done|].
      apply marking_idem.
  - assert (H : foldl (clicked None) p ls = p).
    { induction ls as [|l ls IH]; [done|]. cbn [foldl].
      replace (clicked None p l) with p; [done|].
      unfold clicked. by destruct (get_attribute (dom p) l "href"). }
    rewrite H. assert (Hn : ls ≫= asked None (dom p) = []).
    { clear. induction ls as [|l ls IH]; [done|]. rewrite bind_cons, IH. unfold asked.
      by destruct (get_attribute (dom p) l "href"). }
    rewrite Hn. simpl. by rewrite app_nil_r.
Qed.

Lemma clickat_spec (s : page) (path : list node) :
  NoDup (links s) →
  links (step (ClickAt path) s).1 = links s
  ∧ transitionPreloader (step (ClickAt path) s).1 = transitionPreloader s
  ∧ clock (step (ClickAt path) s).1 = clock s
  ∧ navigations (step (ClickAt path) s).1 = navigations s
  ∧ length (dom (step (ClickAt path) s).1) = length (dom s)
  ∧ timers (step (ClickAt path) s).1
    = timers s ++ ((λ h, ((clock s + 500)%N, Navigate h)) <$> request s (ClickAt path))
  ∧ dom (step (ClickAt path) s).1
    = mark_if (transitionPreloader s) (request s (ClickAt path)) (dom s).
Proof.
  intros Hnd. rewrite (clickat_page s path Hnd), (request_path s path).
  exact (clicked_fold (transitionPreloader s) (filter (λ n, n ∈ links s) path) s).
Qed.

(** The hrefs asked for along a path are hrefs of intercepted clicks. *)
Lemma request_qualifying (s : page) (path : list node) (h : string) :
  h ∈ request s (ClickAt path) → ∃ i, i ∈ path ∧ qualifying s i h.
Proof.
  simpl. rewrite list_elem_of_bind. intros (i & Hh & Hi). exists i. split; [done|].
  unfold request_at in Hh.
  destruct (get_attribute (dom s) i "href") as [h'|] eqn:E; [|by apply elem_of_nil in Hh].
  destruct (transitionPreloader s); [|by apply elem_of_nil in Hh].
  destruct (decide (i ∈ links s)) as [Hl|Hl].
  - rewrite (bool_decide_eq_true_2 _ Hl) in Hh. simpl in Hh.
    destruct (is_internal h') eqn:Hint; [|by apply elem_of_nil in Hh].
    apply list_elem_of_singleton in Hh as ->. done.
  - rewrite (bool_decide_eq_false_2 _ Hl) in Hh. by apply elem_of_nil in Hh.
Qed.

(** Every event leaves the two constants of the controller and the clock's
    direction alone, and keeps every node in its place. *)
Lemma step_constants (ev : event) (s : page) :
  NoDup (links s) →
  links (step ev s).1 = links s
  ∧ transitionPreloader (step ev s).1 = transitionPreloader s
  ∧ length (dom (step ev s).1) = length (dom s)
  ∧ (clock s ≤ clock (step ev s).1)%N.
Proof.
  intros Hnd. destruct ev as [i| |ms|n k v|n k|path];
    [| | | | |destruct (clickat_spec s path Hnd) as (-> & -> & -> & _ & -> & _);
              repeat split; try done; lia].
  - destruct (click_cases s i Hnd) as [(r & -> & _)|(o & h & _ & _ & _ & _ & ->)];
      simpl; rewrite ?length_alter; repeat split; try done; lia.
  - destruct (load_cases s) as [(_ & ->)|(o & _ & ->)];
      simpl; rewrite ?length_alter; repeat split; try done; lia.
  - rewrite elapse_step; simpl. repeat split; try done; lia.
  - simpl. unfold edit_attributes. case_bool_decide; simpl;
      rewrite ?length_alter; repeat split; try done; lia.
  - simpl. unfold edit_attributes. case_bool_decide; simpl;
      rewrite ?length_alter; repeat split; try done; lia.
Qed.

Lemma run_snoc (tr : list event) (ev : event) (s : page) :
  run (tr ++ [ev]) s = (step ev (run tr s)).1.
Proof. unfold run. by rewrite foldl_app. Qed.

Lemma run_cons (tr : list event) (ev : event) (s : page) :
  run (ev :: tr) s = run tr (step ev s).1.
Proof. done. Qed.

Lemma run_app (tr1 tr2 : list event) (s : page) :
  run (tr1 ++ tr2) s = run tr2 (run tr1 s).
Proof. unfold run. by rewrite foldl_app. Qed.

Lemma run_constants (tr : list event) (s : page) :
  NoDup (links s) →
  links (run tr s) = links s
  ∧ transitionPreloader (run tr s) = transitionPreloader s
  ∧ length (dom (run tr s)) = length (dom s)
  ∧ (clock s ≤ clock (run tr s))%N.
Proof.
  intros Hnd. induction tr as [|ev tr IH] using rev_ind; [repeat split; try done; lia|].
  rewrite run_snoc. destruct IH as (Hl & Ho & Hd & Hc).
  destruct (step_constants ev (run tr s)) as (Hl' & Ho' & Hd' & Hc'); [by rewrite Hl|].
  rewrite Hl', Ho', Hd'. repeat split; try done. lia.
Qed.

Lemma init_NoDup (d : document) : NoDup (links (init d)).
Proof. apply querySelectorAll_NoDup. Qed.

Lemma reachable_NoDup (d : document) (tr : list event) :
  NoDup (links (run tr (init d))).
Proof.
  destruct (run_constants tr (init d) (init_NoDup d)) as (-> & _). apply init_NoDup.
Qed.

(** ** The marker *)


Lemma tokens_remove_elem (tok : string) (l : list string) : tok ∉ tokens_remove tok l.
Proof. unfold tokens_remove. rewrite list_elem_of_filter. by intros [? _]. Qed.


Lemma others_idem (tok : string) (l : list string) :
  filter (λ c, c ≠ tok) (filter (λ c, c ≠ tok) l) = filter (λ c, c ≠ tok) l.
Proof.
  induction l as [|c l IH]; [done|]. destruct (decide (c = tok)) as [->|Hc].
  - by rewrite filter_cons_False by (by intros ?).
  - rewrite (filter_cons_True _ c l) by done.
    rewrite filter_cons_True by done. by f_equal.
Qed.

(** The tokens other than [tok] are kept, in their order, by both operations. *)
Lemma tokens_add_others (tok : string) (l : list string) :
  filter (λ c, c ≠ tok) (tokens_add tok l) = filter (λ c, c ≠ tok) l.
Proof.
  unfold tokens_add. case_bool_decide; [done|].
  rewrite filter_app, filter_cons_False by (by intros ?). apply app_nil_r.
Qed.

Lemma tokens_remove_others (tok : string) (l : list string) :
  filter (λ c, c ≠ tok) (tokens_remove tok l) = filter (λ c, c ≠ tok) l.
Proof. apply others_idem. Qed.

Lemma has_class_added (d : document) (o : node) (tok : string) :
  o < length d → has_class (alter (with_classList (tokens_add tok)) o d) o tok = true.
Proof.
  intros [e He]%lookup_lt_is_Some. unfold has_class.
  rewrite list_lookup_alter_eq, He; simpl.
  apply bool_decide_eq_true_2, tokens_add_elem.
Qed.

Lemma has_class_removed (d : document) (o : node) (tok : string) :
  has_class (alter (with_classList (tokens_remove tok)) o d) o tok = false.
Proof.
  unfold has_class. rewrite list_lookup_alter_eq.
  destruct (d !! o) as [e|]; simpl; [|done].
  apply bool_decide_eq_false_2, tokens_remove_elem.
Qed.

(** In a page made by [init], the overlay constant names a node of the
    document for as long as the page runs. *)
Lemma overlay_in_document (d : document) (tr : list event) (o : node) :
  transitionPreloader (run tr (init d)) = Some o → o < length (dom (run tr (init d))).
Proof.
  destruct (run_constants tr (init d) (init_NoDup d)) as (_ & -> & -> & _).
  simpl. intros (e & He & _)%querySelector_Some. by eapply lookup_lt_Some.
Qed.

(** The document after an event of the controller is the one before, or the
    one before with the marker added to, or removed from, the overlay. *)
Lemma controller_dom (ev : event) (s : page) :
  NoDup (links s) → by_controller ev = true →
  dom (step ev s).1 = dom s
  ∨ ∃ o f, transitionPreloader s = Some o
           ∧ (f = tokens_add marker ∨ f = tokens_remove marker)
           ∧ dom (step ev s).1 = alter (with_classList f) o (dom s).
Proof.
  intros Hnd Hev. destruct ev as [i| |ms|n k v|n k|path]; try done.
  - destruct (click_cases s i Hnd) as [(r & -> & _)|(o & h & _ & _ & _ & Ho & ->)];
      [by left|]. right. exists o, (tokens_add marker). auto.
  - destruct (load_cases s) as [(_ & ->)|(o & Ho & ->)]; [by left|].
    right. exists o, (tokens_remove marker). auto.
  - rewrite elapse_step. by left.
  - destruct (clickat_spec s path Hnd) as (_ & _ & _ & _ & _ & _ & ->).
    unfold mark_if. destruct (request s (ClickAt path)); [by left|].
    destruct (transitionPreloader s) as [o|] eqn:Ho; [|by left].
    right. exists o, (tokens_add marker). auto.
Qed.

(** ** Timers *)

(** A pending timer stays pending for as long as the clock has not reached
    the time it is due. *)
Lemma step_keeps_timer (ev : event) (s : page) (t : timer) :
  NoDup (links s) → t ∈ timers s → (clock (step ev s).1 < t.1)%N →
  t ∈ timers (step ev s).1.
Proof.
  intros Hnd Ht. destruct ev as [i| |ms|n k v|n k|path].
  - destruct (click_cases s i Hnd) as [(r & -> & _)|(o & h & _ & _ & _ & _ & ->)];
      simpl; [done|]. intros _. apply elem_of_app. by left.
  - by destruct (load_cases s) as [(_ & ->)|(o & _ & ->)].
  - rewrite elapse_step; simpl. intros Hc.
    apply list_elem_of_filter. split; [|done]. unfold is_due. lia.
  - simpl. unfold edit_attributes. by case_bool_decide.
  - simpl. unfold edit_attributes. by case_bool_decide.
  - destruct (clickat_spec s path Hnd) as (_ & _ & _ & _ & _ & -> & _).
    intros _. apply elem_of_app. by left.
Qed.

Lemma run_keeps_timer (tr : list event) (s : page) (t : timer) :
  NoDup (links s) → t ∈ timers s → (clock (run tr s) < t.1)%N →
  t ∈ timers (run tr s).
Proof.
  intros Hnd Ht. induction tr as [|ev tr IH] using rev_ind; [done|].
  rewrite run_snoc. intros Hc.
  destruct (run_constants tr s Hnd) as (Hl & _).
  destruct (step_constants ev (run tr s)) as (_ & _ & _ & Hmono); [by rewrite Hl|].
  apply step_keeps_timer; [by rewrite Hl| |done]. apply IH. lia.
Qed.

Lemma filter_StronglySorted (P : timer → Prop) `{∀ t, Decision (P t)} (l : list timer) :
  StronglySorted earlier l → StronglySorted earlier (filter P l).
Proof.
  induction 1 as [|t l Hl IH Ht]; [constructor|].
  rewrite filter_cons. case_decide; [|done]. constructor; [done|].
  apply Forall_forall. intros x [_ Hx]%list_elem_of_filter.
  by apply (proj1 (Forall_forall _ _) Ht).
Qed.

(** The pending timers of a page made by [init] are in the order in which
    they come due, none later than 500 ms from now: running the due ones
    oldest first runs them by due time. *)
Lemma fresh_timers_due (c : N) (hs : list string) :
  Forall (λ t : timer, t.1 = (c + 500)%N) ((λ h, ((c + 500)%N, Navigate h)) <$> hs).
Proof. induction hs; by constructor. Qed.

Lemma fresh_timers_sorted (c : N) (hs : list string) :
  StronglySorted earlier ((λ h, ((c + 500)%N, Navigate h)) <$> hs).
Proof.
  induction hs as [|h hs IH]; [constructor|]. rewrite fmap_cons. constructor; [done|].
  eapply Forall_impl; [apply fresh_timers_due|]. intros t Ht. unfold earlier.
  simpl in *. lia.
Qed.

Lemma timers_in_due_order (d : document) (tr : list event) :
  let s := run tr (init d) in
  StronglySorted earlier (timers s)
  ∧ Forall (λ t : timer, (t.1 ≤ clock s + 500)%N) (timers s).
Proof.
  induction tr as [|ev tr IH] using rev_ind; simpl; [by split; constructor|].
  rewrite run_snoc. destruct IH as (Hs & Hb).
  assert (Hnd := reachable_NoDup d tr).
  destruct ev as [i| |ms|n k v|n k|path].
  - destruct (click_cases _ i Hnd) as [(r & -> & _)|(o & h & _ & _ & _ & _ & ->)];
      [done|]. simpl. split.
    + apply StronglySorted_app. split; [|split; [done|by repeat constructor]].
      intros x1 x2 Hx1 ->%list_elem_of_singleton.
      exact (proj1 (Forall_forall _ _) Hb x1 Hx1).
    + apply Forall_app. split; [done|]. repeat constructor. simpl. lia.
  - by destruct (load_cases (run tr (init d))) as [(_ & ->)|(o & _ & ->)].
  - rewrite elapse_step. simpl. split; [by apply filter_StronglySorted|].
    apply Forall_forall. intros t [_ Ht]%list_elem_of_filter.
    assert (H := proj1 (Forall_forall _ _) Hb t Ht). simpl in H. lia.
  - simpl. unfold edit_attributes. by case_bool_decide.
  - simpl. unfold edit_attributes. by case_bool_decide.
  - destruct (clickat_spec _ path Hnd) as (_ & _ & -> & _ & _ & -> & _). split.
    + apply StronglySorted_app. split; [|split; [done|apply fresh_timers_sorted]].
      intros x1 x2 Hx1 Hx2.
      apply (proj1 (Forall_forall _ _) (fresh_timers_due _ _)) in Hx2.
      assert (H := proj1 (Forall_forall _ _) Hb x1 Hx1). unfold earlier. simpl in *. lia.
    + apply Forall_app. split; [done|].
      eapply Forall_impl; [apply fresh_timers_due|]. intros t Ht. simpl in *. lia.
Qed.

(** A pending timer is due in the future. *)
Lemma pending_in_future (d : document) (tr : list event) :
  Forall (λ t : timer, (clock (run tr (init d)) < t.1)%N) (timers (run tr (init d))).
Proof.
  induction tr as [|ev tr IH] using rev_ind; [constructor|].
  rewrite run_snoc. assert (Hnd := reachable_NoDup d tr).
  destruct ev as [i| |ms|n k v|n k|path].
  - destruct (click_cases _ i Hnd) as [(r & -> & _)|(o & h & _ & _ & _ & _ & ->)];
      [done|]. simpl. apply Forall_app. split; [done|]. repeat constructor. simpl. lia.
  - by destruct (load_cases (run tr (init d))) as [(_ & ->)|(o & _ & ->)].
  - rewrite elapse_step. simpl. apply Forall_forall.
    intros t [Ht _]%list_elem_of_filter. unfold is_due in Ht. lia.
  - simpl. unfold edit_attributes. by case_bool_decide.
  - simpl. unfold edit_attributes. by case_bool_decide.
  - destruct (clickat_spec _ path Hnd) as (_ & _ & -> & _ & _ & -> & _).
    apply Forall_app. split; [done|].
    eapply Forall_impl; [apply fresh_timers_due|]. intros t Ht. simpl in *. lia.
Qed.

(** A pending timer is still pending after an event, or it has run and its
    href has been assigned to the location; what was assigned stays in the
    log. *)
Lemma step_timer_runs (ev : event) (s : page) (due : N) (h : string) :
  NoDup (links s) →
  ((due, Navigate h) ∈ timers s ∨ h ∈ navigations s) →
  (due, Navigate h) ∈ timers (step ev s).1 ∨ h ∈ navigations (step ev s).1.
Proof.
  intros Hnd H. destruct ev as [i| |ms|n k v|n k|path].
  - destruct (click_cases s i Hnd) as [(r & -> & _)|(o & h' & _ & _ & _ & _ & ->)];
      [done|]. simpl. rewrite elem_of_app. tauto.
  - by destruct (load_cases s) as [(_ & ->)|(o & _ & ->)].
  - rewrite elapse_step. simpl. rewrite elem_of_app, list_elem_of_filter.
    destruct H as [Ht|Hn]; [|by auto].
    destruct (decide (is_due (clock s + ms)%N (due, Navigate h))) as [Hdue|Hdue]; [|by auto].
    right. right. unfold targets. apply list_elem_of_fmap.
    exists (due, Navigate h). split; [done|]. by apply list_elem_of_filter.
  - simpl. unfold edit_attributes. by case_bool_decide.
  - simpl. unfold edit_attributes. by case_bool_decide.
  - destruct (clickat_spec s path Hnd) as (_ & _ & _ & -> & _ & -> & _).
    rewrite elem_of_app. tauto.
Qed.

Lemma run_timer_runs (tr : list event) (s : page) (due : N) (h : string) :
  NoDup (links s) →
  ((due, Navigate h) ∈ timers s ∨ h ∈ navigations s) →
  (due, Navigate h) ∈ timers (run tr s) ∨ h ∈ navigations (run tr s).
Proof.
  intros Hnd H. induction tr as [|ev tr IH] using rev_ind; [done|].
  rewrite run_snoc. apply step_timer_runs; [|done].
  by destruct (run_constants tr s Hnd) as (-> & _).
Qed.

(** The attributes of a page made by [init] are read from its document as it
    is now; the nodes with a listener are the ones matched in the document
    as it was. *)
Lemma reachable_links (d : document) (tr : list event) :
  links (run tr (init d)) = querySelectorAll link_selector d.
Proof. by destruct (run_constants tr (init d) (init_NoDup d)) as (-> & _). Qed.

Lemma reachable_overlay (d : document) (tr : list event) :
  transitionPreloader (run tr (init d)) = querySelector overlay_selector d.
Proof. by destruct (run_constants tr (init d) (init_NoDup d)) as (_ & -> & _). Qed.

(** ** Clicks *)

(** A click along a path that holds a matched anchor with an internal href
    marks the overlay and queues a timer for that href. *)
Lemma clickat_intercepts (s : page) (path : list node) (i o : node) (h : string) :
  NoDup (links s) → transitionPreloader s = Some o → o < length (dom s) →
  qualifying s i h → i ∈ path →
  has_class (dom (step (ClickAt path) s).1) o marker = true
  ∧ ((clock s + 500)%N, Navigate h) ∈ timers (step (ClickAt path) s).1
  ∧ navigations (step (ClickAt path) s).1 = navigations s.
Proof.
  intros Hnd Ho Hlt (Hi & Hh & Hint) Hp.
  destruct (clickat_spec s path Hnd) as (_ & _ & _ & Hn & _ & Ht & Hd).
  rewrite Hd, Ht, Hn, Ho.
  assert (Hin : h ∈ request s (ClickAt path)).
  { simpl. apply list_elem_of_bind. exists i. split; [|done].
    unfold request_at. rewrite Hh, Ho, (bool_decide_eq_true_2 _ Hi), Hint.
    by apply list_elem_of_singleton. }
  split; [|split; [|done]].
  - destruct (request s (ClickAt path)) as [|h' hs]; [by apply elem_of_nil in Hin|].
    simpl. by apply has_class_added.
  - apply elem_of_app. right. apply list_elem_of_fmap. by exists h.
Qed.

(** C1, as stated, fails on an anchor with [target="_blank"]: its href
    "/about" does not begin with "http", and a click on it prevents nothing,
    marks nothing and schedules nothing.  It also fails on a page without
    the overlay, where the click on "/about" is prevented and then throws,
    with nothing marked and nothing scheduled. *)
Lemma click_target_blank_not_intercepted :
  (sample_page !! 2 = Some (anchor_blank "/about")
   ∧ get_attribute sample_page 2 "href" = Some "/about"
   ∧ startsWith "/about" "http" = false
   ∧ default_prevented (step (Click 2) (init sample_page)).2 = false
   ∧ overlay_active (step (Click 2) (init sample_page)).1 = false
   ∧ timers (step (Click 2) (init sample_page)).1 = [])
  ∧ (bare_page !! 0 = Some (anchor "/about")
     ∧ step (Click 0) (init bare_page)
       = (init bare_page, {| default_prevented := true; uncaught := [TypeError] |})
     ∧ timers (init bare_page) = []
     ∧ navigations (run [Click 0; Elapse 500] (init bare_page)) = []).
Proof. vm_compute. repeat split. Qed.

(** C1 (amended). On a page with the overlay, for every anchor that the
    controller matched when it initialised (it had an href and its target
    was not "_blank", compared without regard to ASCII letter case) and
    whose href, read at the click, does not begin with "http": the click
    prevents the default action and throws nothing, the
    overlay carries the marker as soon as the click is handled, exactly one
    timer for that href string, due 500 ms later, joins the pending ones, and
    nothing is assigned to the location by the click itself.  While the
    clock has not advanced by 500 ms that timer is still pending, whatever
    else happens; once it has advanced by 500 ms or more, whatever else
    happened, the timer has run and that href has been assigned to the
    location; and if the 500 ms pass in one go, that href is the last value
    assigned.  A click dispatched at a descendant of the anchor reaches the
    anchor's listener as well: it marks the overlay and queues a timer for
    that href, due 500 ms later. *)
Theorem click_internal_link (d : document) (tr : list event) (i o : node) (h : string) :
  let s := run tr (init d) in
  let s' := (step (Click i) s).1 in
  i ∈ querySelectorAll link_selector d →
  querySelector overlay_selector d = Some o →
  get_attribute (dom s) i "href" = Some h →
  startsWith h "http" = false →
  (step (Click i) s).2 = {| default_prevented := true; uncaught := [] |}
  ∧ has_class (dom s') o marker = true
  ∧ timers s' = timers s ++ [((clock s + 500)%N, Navigate h)]
  ∧ navigations s' = navigations s
  ∧ clock s' = clock s
  ∧ (∀ tr', (clock (run tr' s') < clock s + 500)%N →
            ((clock s + 500)%N, Navigate h) ∈ timers (run tr' s'))
  ∧ (∀ tr', (clock s + 500 ≤ clock (run tr' s'))%N →
            (((clock s + 500)%N, Navigate h) ∉ timers (run tr' s'))
            ∧ h ∈ navigations (run tr' s'))
  ∧ (∀ ms, (500 ≤ ms)%N →
           ∃ pre, navigations (step (Elapse ms) s').1 = navigations s ++ pre ++ [h])
  ∧ (∀ path, i ∈ path →
             has_class (dom (step (ClickAt path) s).1) o marker = true
             ∧ ((clock s + 500)%N, Navigate h) ∈ timers (step (ClickAt path) s).1
             ∧ navigations (step (ClickAt path) s).1 = navigations s).
Proof.
  intros s s' Hi Ho Hh Hhttp.
  assert (Hnd : NoDup (links s)) by apply reachable_NoDup.
  assert (Hint : is_internal h = true).
  { rewrite is_internal_not_http. unfold not_http. by rewrite Hhttp. }
  assert (Hstep : step (Click i) s
                  = (intercepted o h s, {| default_prevented := true; uncaught := [] |})).
  { apply click_internal_overlay; try done.
    - unfold s. by rewrite reachable_links.
    - unfold s. by rewrite reachable_overlay. }
  assert (Hs' : s' = run (tr ++ [Click i]) (init d)) by by rewrite run_snoc.
  assert (Hin : ((clock s + 500)%N, Navigate h) ∈ timers s').
  { unfold s'. rewrite Hstep. simpl. apply elem_of_app. right.
    by apply list_elem_of_singleton. }
  assert (Hnd' : NoDup (links s')) by (rewrite Hs'; apply reachable_NoDup).
  split; [by rewrite Hstep|]. split.
  { unfold s'. rewrite Hstep. simpl. apply has_class_added.
    apply (overlay_in_document d tr). by rewrite reachable_overlay. }
  split; [unfold s'; by rewrite Hstep|]. split; [unfold s'; by rewrite Hstep|].
  split; [unfold s'; by rewrite Hstep|]. split; [|split; [|split]].
  - intros tr' Hc. by apply run_keeps_timer.
  - intros tr' Hc.
    assert (Hfut := pending_in_future d ((tr ++ [Click i]) ++ tr')).
    rewrite run_app, <- Hs' in Hfut.
    assert (Hnot : ((clock s + 500)%N, Navigate h) ∉ timers (run tr' s')).
    { intros Ht. apply (proj1 (Forall_forall _ _) Hfut) in Ht. simpl in Ht. lia. }
    split; [done|].
    by destruct (run_timer_runs tr' s' (clock s + 500)%N h Hnd' (or_introl Hin)).
  - intros ms Hms. unfold s'. rewrite Hstep. cbn [fst]. rewrite elapse_step. simpl.
    exists (targets (filter (is_due (clock s + ms)%N) (timers s))).
    rewrite filter_app, filter_cons_True by (unfold is_due; simpl; lia).
    unfold targets. by rewrite fmap_app.
  - intros path Hp. apply (clickat_intercepts s path i o h); try done.
    + unfold s. by rewrite reachable_overlay.
    + apply (overlay_in_document d tr). by rewrite reachable_overlay.
    + split; [|done]. unfold s. by rewrite reachable_links.
Qed.

Lemma click_internal_link_witness :
  let s := run [Elapse 100] (init sample_page) in
  let s' := (step (Click 1) s).1 in
  (1 ∈ querySelectorAll link_selector sample_page
   ∧ querySelector overlay_selector sample_page = Some 0
   ∧ get_attribute (dom s) 1 "href" = Some "/about"
   ∧ startsWith "/about" "http" = false)
  ∧ (step (Click 1) s).2 = {| default_prevented := true; uncaught := [] |}
  ∧ has_class (dom s') 0 marker = true
  ∧ timers s' = [(600%N, Navigate "/about")].
Proof.
  assert (H1 : 1 ∈ querySelectorAll link_selector sample_page) by compute_done.
  assert (H2 : querySelector overlay_selector sample_page = Some 0) by reflexivity.
  assert (H3 : get_attribute (dom (run [Elapse 100] (init sample_page))) 1 "href"
               = Some "/about") by reflexivity.
  assert (H4 : startsWith "/about" "http" = false) by reflexivity.
  destruct (click_internal_link sample_page [Elapse 100] 1 0 "/about" H1 H2 H3 H4)
    as (A & B & C & _).
  repeat split; assumption.
Defined.

(** C2, as stated, fails on an anchor whose target became "_blank" after
    the controller initialised: it was matched, so it has its listener, and
    a click on it is intercepted. *)
Lemma click_target_blank_set_later :
  let s := run [SetAttribute 1 "target" "_blank"] (init sample_page) in
  get_attribute sample_page 1 "target" = None
  ∧ get_attribute (dom s) 1 "target" = Some "_blank"
  ∧ get_attribute (dom s) 1 "href" = Some "/about"
  ∧ (step (Click 1) s).2 = {| default_prevented := true; uncaught := [] |}
  ∧ overlay_active (step (Click 1) s).1 = true
  ∧ timers (step (Click 1) s).1 = [(500%N, Navigate "/about")].
Proof. vm_compute. repeat split. Qed.

(** C2 (amended). A click on an anchor whose href, read at the click, begins
    with "http", and a click on an anchor whose target was "_blank" (in any
    letter case) when the controller initialised, whatever its href, is not
    intercepted: the page is left exactly as it was (no marker added, no
    timer scheduled), the default action is not prevented and nothing is
    thrown. *)
Theorem click_not_intercepted (d : document) (tr : list event) (i : node) :
  let s := run tr (init d) in
  (∃ h, get_attribute (dom s) i "href" = Some h ∧ startsWith h "http" = true)
  ∨ (∃ e v, d !! i = Some e ∧ attributes e !! "target" = Some v ∧ lower v = "_blank") →
  step (Click i) s = (s, {| default_prevented := false; uncaught := [] |}).
Proof.
  intros s [(h & Hh & Hhttp)|(e & v & He & Ht & Hv)].
  - destruct (decide (i ∈ links s)) as [Hi|Hi]; [|by apply click_no_listener].
    apply click_external with h; try done; [apply reachable_NoDup|].
    rewrite is_internal_not_http. unfold not_http. by rewrite Hhttp.
  - apply click_no_listener. unfold s. rewrite reachable_links.
    intros (e' & He' & Hsel)%querySelectorAll_spec. simplify_eq.
    unfold link_selector, target_blank in Hsel. rewrite Ht in Hsel.
    rewrite (bool_decide_eq_true_2 _ Hv) in Hsel.
    by rewrite andb_false_r in Hsel.
Qed.

Lemma click_not_intercepted_witness :
  (∃ h, get_attribute (dom (run [] (init sample_page))) 3 "href" = Some h
        ∧ startsWith h "http" = true)
  ∧ (∃ e v, sample_page !! 2 = Some e ∧ attributes e !! "target" = Some v
            ∧ lower v = "_blank")
  ∧ step (Click 3) (init sample_page)
    = (init sample_page, {| default_prevented := false; uncaught := [] |})
  ∧ step (Click 2) (init sample_page)
    = (init sample_page, {| default_prevented := false; uncaught := [] |}).
Proof.
  assert (H1 : ∃ h, get_attribute (dom (run [] (init sample_page))) 3 "href" = Some h
                    ∧ startsWith h "http" = true)
    by (exists "https://example.com"; split; reflexivity).
  assert (H2 : ∃ e v, sample_page !! 2 = Some e ∧ attributes e !! "target" = Some v
                      ∧ lower v = "_blank")
    by (exists (anchor_blank "/about"), "_blank"; repeat split; reflexivity).
  split; [exact H1|]. split; [exact H2|]. split.
  - exact (click_not_intercepted sample_page [] 3 (or_introl H1)).
  - exact (click_not_intercepted sample_page [] 2 (or_intror H2)).
Defined.

(** An anchor with [target="_BLANK"] is not matched either. *)
Example upper_case_blank_not_matched :
  let a := {| localName := "a";
              attributes := <["target" := "_BLANK"]> {["href" := "/about"]};
              classList := [] |} in
  links (init [overlay_div; a]) = []
  ∧ step (Click 1) (init [overlay_div; a])
    = (init [overlay_div; a], {| default_prevented := false; uncaught := [] |}).
Proof. vm_compute. by split. Qed.

(** ** The load event *)

(** C3. Whatever the page looked like before, once the [load] listener has
    run the overlay does not carry the marker; on a page with the overlay
    the listener throws nothing. *)
Theorem load_clears_marker (s : page) :
  overlay_active (step Load s).1 = false
  ∧ ∀ o, transitionPreloader s = Some o →
         has_class (dom (step Load s).1) o marker = false
         ∧ uncaught (step Load s).2 = [].
Proof.
  destruct (load_cases s) as [(Ho & ->)|(o & Ho & ->)].
  - split; [unfold overlay_active; simpl; by rewrite Ho|]. intros o Ho'. congruence.
  - split.
    + unfold overlay_active; simpl. rewrite Ho. apply has_class_removed.
    + intros o' Ho'. simplify_eq. split; [apply has_class_removed|done].
Qed.

Lemma load_clears_marker_witness :
  let s := run [Click 1] (init sample_page) in
  transitionPreloader s = Some 0
  ∧ overlay_active s = true
  ∧ overlay_active (step Load s).1 = false
  ∧ has_class (dom (step Load s).1) 0 marker = false
  ∧ uncaught (step Load s).2 = [].
Proof.
  intros s.
  assert (H : transitionPreloader s = Some 0) by reflexivity.
  destruct (load_clears_marker s) as (A & B).
  destruct (B 0 H) as (C & D).
  repeat split; assumption.
Defined.

(** ** A page without the overlay *)

(** C6. On a page where no element has the overlay's class, the constant
    [transitionPreloader] is null in every state the page can reach, and
    there every overlay operation fails: the [load] listener throws a
    [TypeError], and an intercepted click throws a [TypeError] after it has
    prevented the default action and before it schedules anything, so the
    page is left as it was. *)
Theorem missing_overlay_fatal (d : document) (tr : list event) :
  let s := run tr (init d) in
  (∀ e, e ∈ d → "transition-preloader" ∉ classList e) →
  transitionPreloader s = None
  ∧ step Load s = (s, {| default_prevented := false; uncaught := [TypeError] |})
  ∧ ∀ i h, qualifying s i h →
           step (Click i) s = (s, {| default_prevented := true; uncaught := [TypeError] |}).
Proof.
  intros s Habs.
  assert (Ho : transitionPreloader s = None).
  { unfold s. rewrite reachable_overlay. apply querySelector_None.
    intros e He. by apply bool_decide_eq_false_2, Habs. }
  split; [done|]. split; [by apply load_no_overlay|].
  intros i h (Hi & Hh & Hint).
  apply click_internal_no_overlay with h; try done. apply reachable_NoDup.
Qed.

Lemma missing_overlay_fatal_witness :
  let s := run [Elapse 700; Load] (init bare_page) in
  (∀ e, e ∈ bare_page → "transition-preloader" ∉ classList e)
  ∧ qualifying s 1 "#section"
  ∧ transitionPreloader s = None
  ∧ step Load s = (s, {| default_prevented := false; uncaught := [TypeError] |})
  ∧ step (Click 1) s = (s, {| default_prevented := true; uncaught := [TypeError] |}).
Proof.
  intros s.
  assert (H : ∀ e, e ∈ bare_page → "transition-preloader" ∉ classList e).
  { intros e He. apply (Forall_forall (λ e, "transition-preloader" ∉ classList e) bare_page);
      [|done]. repeat constructor; compute_done. }
  assert (Hq : qualifying s 1 "#section").
  { repeat split. compute_done. }
  destruct (missing_overlay_fatal bare_page [Elapse 700; Load] H) as (A & B & C).
  split; [exact H|]. split; [exact Hq|]. split; [exact A|]. split; [exact B|].
  exact (C 1 "#section" Hq).
Defined.

(** ** What the controller writes *)

(** C9. An event handled by the controller (a click, the load event, a timer
    running) leaves every element in its place with its tag, its attributes
    and all its classes other than the marker, in their order; an element
    that is not the overlay is left as it was. *)
Theorem controller_frame (d : document) (tr : list event) (ev : event) :
  let s := run tr (init d) in
  let s' := (step ev s).1 in
  by_controller ev = true →
  length (dom s') = length (dom s)
  ∧ ∀ n e, dom s !! n = Some e →
      ∃ e', dom s' !! n = Some e'
            ∧ localName e' = localName e
            ∧ attributes e' = attributes e
            ∧ filter (λ c, c ≠ marker) (classList e') = filter (λ c, c ≠ marker) (classList e)
            ∧ (transitionPreloader s ≠ Some n → e' = e).
Proof.
  intros s s' Hev.
  destruct (controller_dom ev s (reachable_NoDup d tr) Hev)
    as [Hd|(o & f & Ho & Hf & Hd)]; unfold s'; rewrite Hd.
  - split; [done|]. intros n e He. exists e. by repeat split.
  - split; [apply length_alter|]. intros n e He.
    destruct (decide (o = n)) as [->|Hne].
    + exists (with_classList f e). rewrite list_lookup_alter_eq, He.
      repeat split; simpl; try done.
      destruct Hf as [->| ->]; [apply tokens_add_others|apply tokens_remove_others].
    + exists e. rewrite list_lookup_alter_ne by done. by repeat split.
Qed.

Lemma controller_frame_witness :
  let s := run [] (init sample_page) in
  let s' := (step (Click 1) s).1 in
  by_controller (Click 1) = true
  ∧ dom s' = [with_classList (λ l, l ++ [marker]) overlay_div;
              anchor "/about"; anchor_blank "/about"; anchor "https://example.com"]
  ∧ length (dom s') = length (dom s)
  ∧ ∃ e', dom s' !! 0 = Some e'
          ∧ localName e' = localName overlay_div
          ∧ attributes e' = attributes overlay_div
          ∧ filter (λ c, c ≠ marker) (classList e')
            = filter (λ c, c ≠ marker) (classList overlay_div).
Proof.
  intros s s'.
  assert (H : by_controller (Click 1) = true) by reflexivity.
  destruct (controller_frame sample_page [] (Click 1) H) as (A & B).
  destruct (B 0 overlay_div eq_refl) as (e' & E1 & E2 & E3 & E4 & _).
  split; [exact H|]. split; [reflexivity|]. split; [exact A|].
  exists e'. repeat split; assumption.
Defined.

(** ** The href of a click *)

Lemma click_then_wait (s : page) (i o : node) (h : string) (mid : list event) (ms : N) :
  NoDup (links s) → i ∈ links s →
  get_attribute (dom s) i "href" = Some h → is_internal h = true →
  transitionPreloader s = Some o →
  Forall (λ t : timer, (t.1 ≤ clock s + 500)%N) (timers s) →
  Forall (λ e, by_controller e = false) mid →
  (500 ≤ ms)%N →
  navigations (run (Click i :: mid ++ [Elapse ms]) s)
  = navigations s ++ targets (timers s) ++ [h]
  ∧ timers (run (Click i :: mid ++ [Elapse ms]) s) = [].
Proof.
  intros Hnd Hi Hh Hint Ho Hb Hmid Hms.
  rewrite run_cons, (click_internal_overlay s i Hnd Hi h o Hh Hint Ho). cbn [fst].
  rewrite run_snoc, elapse_step. cbn [fst].
  assert (Hk : clock (run mid (intercepted o h s)) = clock s
               ∧ navigations (run mid (intercepted o h s)) = navigations s
               ∧ timers (run mid (intercepted o h s))
                 = timers s ++ [((clock s + 500)%N, Navigate h)]).
  { clear -Hmid. induction mid as [|e mid IH] using rev_ind; [done|].
    apply Forall_app in Hmid as [Hmid [He _]%Forall_cons].
    rewrite run_snoc. destruct (IH Hmid) as (IH1 & IH2 & IH3).
    destruct e as [j| |m|n k v|n k|path]; try done;
      simpl; unfold edit_attributes; by case_bool_decide. }
  destruct Hk as (Hc & Hn & Ht). unfold elapsed; simpl. rewrite Hc, Hn, Ht.
  assert (Hall : Forall (is_due (clock s + ms)%N)
                   (timers s ++ [((clock s + 500)%N, Navigate h)])).
  { apply Forall_app. split.
    - eapply Forall_impl; [exact Hb|]. intros t Hle. unfold is_due. simpl in *. lia.
    - constructor; [|constructor]. unfold is_due. simpl. lia. }
  split.
  - rewrite (filter_all _ _ Hall). unfold targets. by rewrite fmap_app.
  - apply filter_none. eapply Forall_impl; [exact Hall|]. tauto.
Qed.

(** C10. The href that a click classifies and the href its timer navigates
    to are one string: the value of the anchor's href attribute when the
    click is handled, whatever it was when the listener was attached.  The
    default action is prevented exactly when that string passes the test; a
    click that is not intercepted changes nothing; and the only timer a
    click can add holds that string (it adds it when the string passes the
    test and the page has the overlay).  When that timer runs, that string
    is what is assigned to [window.location.href], after the targets of the
    timers that were pending before it, even if the anchor's attributes were
    edited between the click and the timer. *)
Theorem href_read_at_click (d : document) (tr : list event) (i : node) (h : string) :
  let s := run tr (init d) in
  i ∈ querySelectorAll link_selector d →
  get_attribute (dom s) i "href" = Some h →
  default_prevented (step (Click i) s).2 = is_internal h
  ∧ (is_internal h = false → (step (Click i) s).1 = s)
  ∧ timers (step (Click i) s).1
    = timers s ++ match querySelector overlay_selector d with
                  | Some _ => if is_internal h
                              then [((clock s + 500)%N, Navigate h)] else []
                  | None => []
                  end
  ∧ (is_internal h = true → is_Some (querySelector overlay_selector d) →
     ∀ mid ms, Forall (λ e, by_controller e = false) mid → (500 ≤ ms)%N →
               navigations (run (Click i :: mid ++ [Elapse ms]) s)
               = navigations s ++ targets (timers s) ++ [h]
               ∧ timers (run (Click i :: mid ++ [Elapse ms]) s) = []).
Proof.
  intros s Hi Hh.
  assert (Hnd : NoDup (links s)) by apply reachable_NoDup.
  assert (Hi' : i ∈ links s) by (unfold s; by rewrite reachable_links).
  assert (Hov : transitionPreloader s = querySelector overlay_selector d)
    by apply reachable_overlay.
  destruct (is_internal h) eqn:Hint.
  - destruct (querySelector overlay_selector d) as [o|] eqn:Ho.
    + rewrite (click_internal_overlay s i Hnd Hi' h o Hh Hint Hov).
      split; [done|]. split; [done|]. split; [done|].
      intros _ _ mid ms Hmid Hms.
      apply (click_then_wait s i o h mid ms); try done.
      apply (timers_in_due_order d tr).
    + rewrite (click_internal_no_overlay s i Hnd Hi' h Hh Hint Hov).
      simpl. rewrite app_nil_r. split; [done|]. split; [done|]. split; [done|].
      by intros _ [? ?].
  - rewrite (click_external s i Hnd Hi' h Hh Hint). simpl.
    split; [done|]. split; [done|]. split; [|done].
    destruct (querySelector overlay_selector d); by rewrite app_nil_r.
Qed.

Lemma href_read_at_click_witness :
  let s := run [SetAttribute 1 "href" "https://example.com/"] (init sample_page) in
  let s2 := run [SetAttribute 3 "href" "contact.html"] (init sample_page) in
  let mid := [SetAttribute 3 "href" "/other"; RemoveAttribute 3 "href"] in
  (1 ∈ querySelectorAll link_selector sample_page
   ∧ get_attribute sample_page 1 "href" = Some "/about"
   ∧ get_attribute (dom s) 1 "href" = Some "https://example.com/")
  ∧ (3 ∈ querySelectorAll link_selector sample_page
     ∧ get_attribute sample_page 3 "href" = Some "https://example.com"
     ∧ get_attribute (dom s2) 3 "href" = Some "contact.html")
  ∧ default_prevented (step (Click 1) s).2 = false
  ∧ (step (Click 1) s).1 = s
  ∧ default_prevented (step (Click 3) s2).2 = true
  ∧ timers (step (Click 3) s2).1 = [(500%N, Navigate "contact.html")]
  ∧ navigations (run (Click 3 :: mid ++ [Elapse 500]) s2) = ["contact.html"].
Proof.
  intros s s2 mid.
  assert (H1 : 1 ∈ querySelectorAll link_selector sample_page) by compute_done.
  assert (H3 : 3 ∈ querySelectorAll link_selector sample_page) by compute_done.
  assert (Hmid : Forall (λ e, by_controller e = false) mid) by (repeat constructor).
  destruct (href_read_at_click sample_page
              [SetAttribute 1 "href" "https://example.com/"] 1 "https://example.com/"
              H1 eq_refl) as (A & B & _).
  destruct (href_read_at_click sample_page
              [SetAttribute 3 "href" "contact.html"] 3 "contact.html"
              H3 eq_refl) as (A' & _ & C' & D').
  split; [by repeat split|]. split; [by repeat split|].
  split; [exact A|]. split; [exact (B eq_refl)|]. split; [exact A'|].
  split; [exact C'|].
  exact (proj1 (D' eq_refl (ex_intro _ 0 eq_refl) mid 500%N Hmid (N.le_refl 500))).
Defined.

(** ** The life of the marker *)

Lemma has_class_edit (f : gmap string string → gmap string string)
    (d : document) (n o : node) (tok : string) :
  has_class (alter (with_attributes f) n d) o tok = has_class d o tok.
Proof.
  unfold has_class. destruct (decide (n = o)) as [->|Hne].
  - rewrite list_lookup_alter_eq. by destruct (d !! o).
  - by rewrite list_lookup_alter_ne.
Qed.

Lemma overlay_active_intercepted (s : page) (o : node) (h : string) :
  transitionPreloader s = Some o → o < length (dom s) →
  overlay_active (intercepted o h s) = true.
Proof.
  intros Ho Hlt. unfold overlay_active; simpl. rewrite Ho. by apply has_class_added.
Qed.

Lemma has_class_in_document (d : document) (o : node) (tok : string) :
  has_class d o tok = true → o < length d.
Proof.
  unfold has_class. destruct (d !! o) eqn:E; [|done]. intros _. by eapply lookup_lt_Some.
Qed.

(** Only an intercepted click puts the marker on the overlay, as long as
    nothing else writes the [class] attribute. *)
Lemma marker_set_by_click (ev : event) (s : page) :
  NoDup (links s) → edits_class ev = false →
  overlay_active s = false → overlay_active (step ev s).1 = true →
  ∃ i h, reaches ev i ∧ qualifying s i h.
Proof.
  intros Hnd Hc H0 H1. destruct ev as [i| |ms|n k v|n k|path].
  - destruct (click_cases s i Hnd) as [(r & Hs & _)|(o & h & Hi & Hh & Hint & _ & _)].
    + rewrite Hs in H1; simpl in H1. congruence.
    + exists i, h. by repeat split.
  - destruct (load_cases s) as [(_ & Hs)|(o & Ho & Hs)]; rewrite Hs in H1; simpl in H1.
    + congruence.
    + unfold overlay_active in H1; simpl in H1. rewrite Ho in H1.
      by rewrite has_class_removed in H1.
  - rewrite elapse_step in H1. unfold overlay_active in *; simpl in *. congruence.
  - simpl in H1, Hc. unfold edit_attributes in H1. rewrite Hc in H1.
    unfold overlay_active in *; simpl in *.
    destruct (transitionPreloader s); [|done]. rewrite has_class_edit in H1. congruence.
  - simpl in H1, Hc. unfold edit_attributes in H1. rewrite Hc in H1.
    unfold overlay_active in *; simpl in *.
    destruct (transitionPreloader s); [|done]. rewrite has_class_edit in H1. congruence.
  - destruct (clickat_spec s path Hnd) as (_ & Ho & _ & _ & _ & _ & Hd).
    unfold overlay_active in H0, H1. rewrite Ho, Hd in H1. unfold mark_if in H1.
    destruct (request s (ClickAt path)) as [|h hs] eqn:Hr; [congruence|].
    destruct (request_qualifying s path h) as (i & Hi & Hq); [rewrite Hr; by left|].
    by exists i, h.
Qed.

(** Only the load event takes the marker off the overlay, as long as nothing
    else writes the [class] attribute. *)
Lemma marker_cleared_by_load (ev : event) (s : page) :
  NoDup (links s) → edits_class ev = false →
  overlay_active s = true → overlay_active (step ev s).1 = false →
  ev = Load.
Proof.
  intros Hnd Hc H1 H0. destruct ev as [i| |ms|n k v|n k|path]; [| done | | | |].
  - destruct (click_cases s i Hnd) as [(r & Hs & _)|(o & h & _ & _ & _ & Ho & Hs)];
      rewrite Hs in H0; simpl in H0; [congruence|].
    rewrite overlay_active_intercepted in H0; [done..|].
    unfold overlay_active in H1. rewrite Ho in H1. by eapply has_class_in_document.
  - rewrite elapse_step in H0. unfold overlay_active in *; simpl in *. congruence.
  - simpl in H0, Hc. unfold edit_attributes in H0. rewrite Hc in H0.
    unfold overlay_active in *; simpl in *.
    destruct (transitionPreloader s); [|done]. rewrite has_class_edit in H0. congruence.
  - simpl in H0, Hc. unfold edit_attributes in H0. rewrite Hc in H0.
    unfold overlay_active in *; simpl in *.
    destruct (transitionPreloader s); [|done]. rewrite has_class_edit in H0. congruence.
  - destruct (clickat_spec s path Hnd) as (_ & Ho & _ & _ & _ & _ & Hd).
    unfold overlay_active in H0, H1. rewrite Ho, Hd in H0. unfold mark_if in H0.
    destruct (request s (ClickAt path)); [congruence|].
    destruct (transitionPreloader s) as [o|]; [|done].
    rewrite has_class_added in H0; [done|]. by eapply has_class_in_document.
Qed.

(** C5, as stated, fails on a page served with the marker already on the
    overlay: the controller never takes it off at initialisation, so the
    overlay carries it before any click.  The end of the 500 ms delay does
    not end the marker: after the timer of a click has run and assigned the
    location, the overlay still carries it.  And other code that writes the
    overlay's [class] attribute puts the marker on, or takes it off, without
    a click and without a load event. *)
Lemma marker_before_any_click :
  (querySelector overlay_selector marked_page = Some 0
   ∧ overlay_active (run [] (init marked_page)) = true
   ∧ overlay_active (run [Elapse 10000] (init marked_page)) = true)
  ∧ (overlay_active (init sample_page) = false
     ∧ navigations (run [Click 1; Elapse 500] (init sample_page)) = ["/about"]
     ∧ timers (run [Click 1; Elapse 500] (init sample_page)) = []
     ∧ overlay_active (run [Click 1; Elapse 500] (init sample_page)) = true)
  ∧ (overlay_active
       (run [SetAttribute 0 "class" "transition-preloader active"] (init sample_page))
     = true
     ∧ overlay_active (run [Click 1; RemoveAttribute 0 "CLASS"] (init sample_page))
       = false).
Proof. vm_compute. repeat split. Qed.

(** C5 (amended). On a page whose overlay does not carry the marker when the
    controller initialises and where no other code writes a [class]
    attribute, in every state the page reaches the overlay carries the
    marker only if an intercepted click (dispatched at a matched anchor or
    at a descendant of one) was handled earlier and no load event has fired
    since.  In every state, among the events that do not write a [class]
    attribute, the only one that puts the marker on is an intercepted click
    and the only one that takes it off is the load event; a timer running
    leaves it where it is. *)
Theorem marker_only_after_click (d : document) (tr : list event) :
  let s := run tr (init d) in
  overlay_active (init d) = false →
  Forall (λ ev, edits_class ev = false) tr →
  (overlay_active s = true →
   ∃ tr1 ev i h tr2, tr = tr1 ++ ev :: tr2 ∧ reaches ev i
                     ∧ qualifying (run tr1 (init d)) i h ∧ Load ∉ tr2)
  ∧ ∀ ev, edits_class ev = false →
          (overlay_active s = false → overlay_active (step ev s).1 = true →
           ∃ i h, reaches ev i ∧ qualifying s i h)
          ∧ (overlay_active s = true → overlay_active (step ev s).1 = false →
             ev = Load).
Proof.
  intros s Hinit Hcls. split.
  - unfold s; clear s. induction tr as [|ev tr IH] using rev_ind.
    + simpl. congruence.
    + apply Forall_app in Hcls as [Hcls [Hev _]%Forall_cons].
      rewrite run_snoc. intros Hact.
      destruct (overlay_active (run tr (init d))) eqn:Hprev.
      * destruct (IH Hcls) as (tr1 & e & i & h & tr2 & -> & Hr & Hq & Hload); [done|].
        exists tr1, e, i, h, (tr2 ++ [ev]). split; [by rewrite <- app_assoc|].
        split; [done|]. split; [done|].
        rewrite elem_of_app, list_elem_of_singleton.
        intros [?|<-]; [done|].
        destruct (load_cases (run (tr1 ++ e :: tr2) (init d)))
          as [(Ho & Hs)|(o & Ho & Hs)]; rewrite Hs in Hact; simpl in Hact.
        -- unfold overlay_active in Hprev. by rewrite Ho in Hprev.
        -- unfold overlay_active in Hact; simpl in Hact. rewrite Ho in Hact.
           by rewrite has_class_removed in Hact.
      * destruct (marker_set_by_click ev (run tr (init d)) (reachable_NoDup d tr)
                    Hev Hprev Hact) as (i & h & Hr & Hq).
        exists tr, ev, i, h, []. split; [done|]. split; [done|]. split; [done|].
        apply not_elem_of_nil.
  - intros ev Hev. split.
    + by apply marker_set_by_click; [apply reachable_NoDup|].
    + by apply marker_cleared_by_load; [apply reachable_NoDup|].
Qed.

Lemma marker_only_after_click_witness :
  let tr := [Load; ClickAt [3; 1]; Elapse 500;
             SetAttribute 1 "href" "https://example.com"] in
  let s := run tr (init sample_page) in
  (overlay_active (init sample_page) = false
   ∧ Forall (λ ev, edits_class ev = false) tr)
  ∧ overlay_active s = true
  ∧ (∃ tr1 ev i h tr2, tr = tr1 ++ ev :: tr2 ∧ reaches ev i
                       ∧ qualifying (run tr1 (init sample_page)) i h ∧ Load ∉ tr2)
  ∧ overlay_active (step (Click 1) (run [Load] (init sample_page))).1 = true
  ∧ (∃ i h, reaches (Click 1) i ∧ qualifying (run [Load] (init sample_page)) i h).
Proof.
  intros tr s.
  assert (H0 : overlay_active (init sample_page) = false) by reflexivity.
  assert (Hc : Forall (λ ev, edits_class ev = false) tr) by (repeat constructor).
  assert (Hc1 : Forall (λ ev, edits_class ev = false) [Load]) by (repeat constructor).
  assert (H1 : overlay_active s = true) by reflexivity.
  assert (H2 : overlay_active (step (Click 1) (run [Load] (init sample_page))).1 = true)
    by reflexivity.
  destruct (marker_only_after_click sample_page tr H0 Hc) as (A & _).
  destruct (marker_only_after_click sample_page [Load] H0 Hc1) as (_ & B).
  split; [exact (conj H0 Hc)|]. split; [exact H1|]. split; [exact (A H1)|].
  split; [exact H2|].
  exact (proj1 (B (Click 1) eq_refl) eq_refl H2).
Defined.

(** ** Repeated events *)

Lemma settled_refl (s : page) : settled s s.
Proof. by repeat split. Qed.



Section Burst.
Variables (s0 : page) (o : node).
Hypothesis Hnd : NoDup (links s0).
Hypothesis Ho : transitionPreloader s0 = Some o.

Lemma burst_click (s1 : page) (i : node) (h : string) :
  settled s0 s1 → qualifying s0 i h →
  step (Click i) s1 = (intercepted o h s1, {| default_prevented := true; uncaught := [] |}).
Proof.
  intros (Hl & Hp & _ & Ha) (Hi & Hh & Hint).
  apply click_internal_overlay; rewrite ?Hl, ?Ha, ?Hp; done.
Qed.

Lemma burst_step (s1 : page) (ev : event) :
  settled s0 s1 → click_or_wait s0 ev →
  settled s0 (step ev s1).1 ∧ clean (step ev s1).2.
Proof.
  intros Hs Hev. destruct ev as [i| |ms| | |]; try done.
  - destruct Hev as (h & Hq). rewrite (burst_click s1 i h Hs Hq).
    split; [|done]. destruct Hs as (Hl & Hp & Hlen & Ha).
    repeat split; simpl; try done.
    + by rewrite length_alter.
    + intros j k. by rewrite get_attribute_classes.
  - rewrite elapse_step. split; [|done]. destruct Hs as (Hl & Hp & Hlen & Ha).
    by repeat split.
Qed.

Lemma burst_run (cs : list event) (s1 : page) :
  settled s0 s1 → Forall (click_or_wait s0) cs →
  settled s0 (run cs s1) ∧ Forall clean (reports cs s1).
Proof.
  intros Hs Hcs. revert s1 Hs. induction Hcs as [|ev cs Hev Hcs IH]; intros s1 Hs.
  - by split.
  - rewrite run_cons. simpl. destruct (burst_step s1 ev Hs Hev) as (Hs' & Hc).
    destruct (IH _ Hs') as (? & ?). split; [done|]. by constructor.
Qed.

(** Once the overlay carries the marker, a burst leaves the document alone. *)
Lemma burst_dom (cs : list event) (s1 : page) :
  settled s0 s1 → Forall (click_or_wait s0) cs →
  alter (with_classList (tokens_add marker)) o (dom s1) = dom s1 →
  dom (run cs s1) = dom s1.
Proof.
  intros Hs Hcs. revert s1 Hs. induction Hcs as [|ev cs Hev Hcs IH]; intros s1 Hs Hm; [done|].
  rewrite run_cons. destruct (burst_step s1 ev Hs Hev) as (Hs' & _).
  assert (Hd : dom (step ev s1).1 = dom s1).
  { destruct ev as [i| |ms| | |]; try done.
    - destruct Hev as (h & Hq). rewrite (burst_click s1 i h Hs Hq). done.
    - by rewrite elapse_step. }
  rewrite IH; [done..|]. by rewrite Hd.
Qed.


End Burst.



Lemma unmarked_idem (o : node) (s : page) : unmarked o (unmarked o s) = unmarked o s.
Proof.
  unfold unmarked, set_dom; simpl. f_equal.
  apply alter_idem. intros [t a c]. unfold with_classList; simpl.
  unfold tokens_remove. by rewrite others_idem.
Qed.

Lemma loads_run (o : node) (n : nat) (s : page) :
  transitionPreloader s = Some o →
  run (replicate (S n) Load) s = unmarked o s
  ∧ Forall clean (reports (replicate (S n) Load) s).
Proof.
  revert s. induction n as [|n IH]; intros s Ho.
  - cbn [replicate]. rewrite run_cons. cbn [reports].
    rewrite (load_overlay s o Ho). split; [done|]. by repeat constructor.
  - change (replicate (S (S n)) Load) with (Load :: replicate (S n) Load).
    rewrite run_cons. cbn [reports]. rewrite (load_overlay s o Ho). cbn [fst snd].
    destruct (IH (unmarked o s) Ho) as (-> & Hr). split; [apply unmarked_idem|].
    by constructor.
Qed.

(** C7, as stated, fails on a page without the overlay: there every load
    event throws and every intercepted click throws, and no overlay ends up
    carrying the marker. *)
Lemma repeats_throw_without_overlay :
  querySelector overlay_selector bare_page = None
  ∧ uncaught <$> reports [Load; Load] (init bare_page) = [[TypeError]; [TypeError]]
  ∧ get_attribute bare_page 0 "href" = Some "/about"
  ∧ is_internal "/about" = true
  ∧ uncaught <$> reports [Click 0; Click 0] (init bare_page) = [[TypeError]; [TypeError]]
  ∧ overlay_active (run [Click 0; Click 0] (init bare_page)) = false.
Proof. vm_compute. repeat split. Qed.

(** C7 (amended). On a page with the overlay, in every state the page
    reaches: any number of load events in a row throw nothing and leave the
    page exactly as the first one did, without the marker; and an
    intercepted click followed by any run of further intercepted clicks and
    waits throws nothing and leaves the document exactly as the first click
    did, the overlay carrying the marker. *)
Theorem repeats_idempotent (d : document) (tr : list event) (o : node) :
  let s := run tr (init d) in
  querySelector overlay_selector d = Some o →
  (∀ n, Forall clean (reports (replicate (S n) Load) s)
        ∧ run (replicate (S n) Load) s = (step Load s).1
        ∧ overlay_active (run (replicate (S n) Load) s) = false)
  ∧ (∀ i h cs, qualifying s i h → Forall (click_or_wait s) cs →
        Forall clean (reports (Click i :: cs) s)
        ∧ dom (run (Click i :: cs) s) = dom (step (Click i) s).1
        ∧ overlay_active (run (Click i :: cs) s) = true).
Proof.
  intros s Hq.
  assert (Ho : transitionPreloader s = Some o) by (unfold s; by rewrite reachable_overlay).
  assert (Hnd : NoDup (links s)) by apply reachable_NoDup.
  assert (Hlt : o < length (dom s)) by by apply overlay_in_document.
  split.
  - intros n. destruct (loads_run o n s Ho) as (Hrun & Hrep).
    rewrite Hrun, (load_overlay s o Ho). repeat split; try done.
    unfold overlay_active; simpl. rewrite Ho. apply has_class_removed.
  - intros i h cs Hi Hcs.
    assert (Hstep := burst_click s o Hnd Ho s i h (settled_refl s) Hi).
    assert (Hs1 : settled s (intercepted o h s)).
    { generalize (burst_step s o Hnd Ho s (Click i) (settled_refl s)
                    (ex_intro _ h Hi)). rewrite Hstep. by intros (? & _). }
    assert (Hm : dom (run cs (intercepted o h s)) = dom (intercepted o h s)).
    { apply (burst_dom s o Hnd Ho); try done. simpl. apply marking_idem. }
    rewrite run_cons. cbn [reports]. rewrite Hstep. cbn [fst snd].
    split; [|split].
    + constructor; [done|]. by apply (burst_run s o Hnd Ho).
    + done.
    + destruct (burst_run s o Hnd Ho cs _ Hs1 Hcs) as ((_ & Hp & _) & _).
      unfold overlay_active. rewrite Hp, Ho, Hm. simpl. by apply has_class_added.
Qed.

Lemma repeats_idempotent_witness :
  let s := run [Elapse 40] (init sample_page) in
  let cs := [Elapse 100; Click 1; Click 1; Elapse 399] in
  (querySelector overlay_selector sample_page = Some 0
   ∧ qualifying s 1 "/about"
   ∧ Forall (click_or_wait s) cs)
  ∧ Forall clean (reports [Load; Load; Load] s)
  ∧ run [Load; Load; Load] s = (step Load s).1
  ∧ Forall clean (reports (Click 1 :: cs) s)
  ∧ dom (run (Click 1 :: cs) s) = dom (step (Click 1) s).1
  ∧ overlay_active (run (Click 1 :: cs) s) = true
  ∧ timers (run (Click 1 :: cs) s)
    = [(540%N, Navigate "/about"); (640%N, Navigate "/about"); (640%N, Navigate "/about")].
Proof.
  intros s cs.
  assert (H0 : querySelector overlay_selector sample_page = Some 0) by reflexivity.
  assert (Hq : qualifying s 1 "/about") by (repeat split; compute_done).
  assert (Hcs : Forall (click_or_wait s) cs).
  { repeat constructor; exists "/about"; exact Hq. }
  destruct (repeats_idempotent sample_page [Elapse 40] 0 H0) as (A & B).
  destruct (A 2) as (A1 & A2 & _).
  destruct (B 1 "/about" cs Hq Hcs) as (B1 & B2 & B3).
  split; [exact (conj H0 (conj Hq Hcs))|].
  split; [exact A1|]. split; [exact A2|]. split; [exact B1|].
  split; [exact B2|]. split; [exact B3|]. reflexivity.
Defined.

(** ** One timer for each click *)




(** * Further properties of the controller *)

(** ** Which elements are handled *)

Lemma target_blank_false (e : element) :
  target_blank e = false ↔ ∀ v, attributes e !! "target" = Some v → lower v ≠ "_blank".
Proof.
  unfold target_blank. destruct (attributes e !! "target") as [v|].
  - rewrite bool_decide_eq_false. split.
    + by intros H ? [= <-].
    + intros H. by apply H.
  - split; [by intros _ ? [=]|done].
Qed.

Lemma clickat_no_listener (s : page) (path : list node) :
  Forall (λ j, j ∉ links s) path →
  step (ClickAt path) s = (s, {| default_prevented := false; uncaught := [] |}).
Proof.
  intros Hp. simpl. unfold path_listeners.
  replace (path ≫= click_listeners s) with (@nil (js unit)); [done|].
  induction Hp as [|j path Hj Hp IH]; [done|].
  rewrite bind_cons, <- IH. unfold click_listeners. by rewrite filter_eq_absent.
Qed.

(** X1. The elements with a click listener are, for the whole life of the
    page, exactly the [a] elements that had an href and no target equal to
    "_blank" (compared without regard to ASCII letter case) in the document
    as it was when the controller initialised, each with one listener; a
    click dispatched at an element that is not one of them changes nothing,
    and neither does a click whose propagation path (the element clicked and
    its ancestors) holds none of them. *)
Theorem listeners_are_matched_anchors (d : document) (tr : list event) (i : node) :
  let s := run tr (init d) in
  NoDup (links s)
  ∧ (i ∈ links s ↔
     ∃ e, d !! i = Some e ∧ localName e = "a" ∧ is_Some (attributes e !! "href")
          ∧ ∀ v, attributes e !! "target" = Some v → lower v ≠ "_blank")
  ∧ (i ∈ links s → click_listeners s i = [click_handler (transitionPreloader s) i])
  ∧ (i ∉ links s →
     step (Click i) s = (s, {| default_prevented := false; uncaught := [] |}))
  ∧ (∀ path, Forall (λ j, j ∉ links s) path →
             step (ClickAt path) s
             = (s, {| default_prevented := false; uncaught := [] |})).
Proof.
  intros s. assert (Hnd : NoDup (links s)) by apply reachable_NoDup.
  split; [done|]. split; [|split; [|split]].
  - unfold s. rewrite reachable_links, querySelectorAll_spec.
    split; intros (e & He & H); exists e; (split; [done|]).
    + unfold link_selector in H.
      apply andb_prop in H as [[H1 H2]%andb_prop H3].
      apply bool_decide_eq_true_1 in H1, H2. apply negb_true_iff in H3.
      split; [done|]. split; [done|]. exact (proj1 (target_blank_false e) H3).
    + destruct H as (H1 & H2 & H3). unfold link_selector.
      rewrite (bool_decide_eq_true_2 _ H1), (bool_decide_eq_true_2 _ H2).
      by rewrite (proj2 (target_blank_false e) H3).
  - intros Hi. by apply click_listeners_one.
  - apply click_no_listener.
  - apply clickat_no_listener.
Qed.

(** A click at a child of a matched anchor runs the anchor's listener; a
    target spelled in upper case keeps the anchor out of the list. *)
Example listeners_on_sample_pages :
  let d := [overlay_div; anchor "/about";
            Element "a" {[ "href" := "/about"; "target" := "_BLANK" ]} [];
            Element "span" ∅ []] in
  links (init d) = [1]
  ∧ timers (step (ClickAt [3; 1]) (init d)).1 = [(500%N, Navigate "/about")]
  ∧ step (ClickAt [3; 2]) (init d)
    = (init d, {| default_prevented := false; uncaught := [] |}).
Proof. vm_compute. by repeat split. Qed.

Lemma select_from_ge (p : element → bool) (d : document) (i j : node) :
  j ∈ select_from p i d → i ≤ j.
Proof. rewrite select_from_spec. by intros (? & ? & _). Qed.

(** The first node that [select_from] returns is the first node that matches. *)
Lemma select_from_head (p : element → bool) (d : document) (i o : node) :
  head (select_from p i d) = Some o ↔
  i ≤ o ∧ (∃ e, d !! (o - i) = Some e ∧ p e = true)
  ∧ ∀ j e, j < o - i → d !! j = Some e → p e = false.
Proof.
  revert i. induction d as [|x d IH]; intros i; simpl.
  - split; [done|]. by intros (_ & (e & He & _) & _).
  - destruct (p x) eqn:Hx; simpl.
    + split.
      * intros [= <-]. rewrite Nat.sub_diag. split; [done|]. split; [by exists x|].
        intros j e Hj. lia.
      * intros (Hle & (e & He & Hp) & Hmin). f_equal.
        destruct (decide (o = i)) as [->|Hne]; [done|].
        assert (H0 := Hmin 0 x). simpl in H0. rewrite H0 in Hx; [done|lia|done].
    + rewrite IH. split.
      * intros (Hle & (e & He & Hp) & Hmin). split; [lia|]. split.
        -- exists e. replace (o - i) with (S (o - S i)) by lia. done.
        -- intros [|j] e'; simpl; [by intros _ [= <-]|].
           intros Hj. apply Hmin. lia.
      * intros (Hle & (e & He & Hp) & Hmin).
        assert (Hne : o ≠ i).
        { intros ->. rewrite Nat.sub_diag in He. simpl in He. congruence. }
        split; [lia|]. replace (o - i) with (S (o - S i)) in * by lia. split.
        -- by exists e.
        -- intros j e' Hj. apply (Hmin (S j)). lia.
Qed.

(** X2. The overlay that the controller works on is, for the whole life of
    the page, the first element in document order that had the class
    [transition-preloader] when the controller initialised: an element is
    the overlay exactly when it had the class and no element before it
    had. *)
Theorem overlay_is_first_match (d : document) (tr : list event) (o : node) :
  transitionPreloader (run tr (init d)) = Some o ↔
  (∃ e, d !! o = Some e ∧ "transition-preloader" ∈ classList e)
  ∧ ∀ j e, j < o → d !! j = Some e → "transition-preloader" ∉ classList e.
Proof.
  rewrite reachable_overlay. unfold querySelector, querySelectorAll.
  rewrite select_from_head, Nat.sub_0_r. unfold overlay_selector. split.
  - intros (_ & (e & He & Hp) & Hmin). split.
    + exists e. split; [done|]. by apply bool_decide_eq_true in Hp.
    + intros j e' Hj He'. specialize (Hmin j e' Hj He').
      by apply bool_decide_eq_false in Hmin.
  - intros ((e & He & Hp) & Hmin). split; [lia|]. split.
    + exists e. split; [done|]. by apply bool_decide_eq_true.
    + intros j e' Hj He'. apply bool_decide_eq_false. by apply (Hmin j).
Qed.

(** A page with two elements of the overlay's class. *)
Example second_overlay_ignored :
  let d := [anchor "/work"; overlay_div; overlay_div] in
  transitionPreloader (init d) = Some 1
  ∧ classList <$> dom (run [Click 0; Elapse 500] (init d))
    = [[]; ["transition-preloader"; "active"]; ["transition-preloader"]].
Proof. vm_compute. by split. Qed.

(** X3. An anchor that had an href when the controller initialised and has
    lost it since still has its listener: a click on it reads a null href,
    throws a [TypeError] at the first [startsWith], and leaves the page as
    it was, the default action not prevented. *)
Theorem click_without_href_throws (d : document) (tr : list event) (i : node) :
  let s := run tr (init d) in
  i ∈ querySelectorAll link_selector d →
  get_attribute (dom s) i "href" = None →
  step (Click i) s = (s, {| default_prevented := false; uncaught := [TypeError] |}).
Proof.
  intros s Hi Hh. apply click_null_href; [apply reachable_NoDup| |done].
  unfold s. by rewrite reachable_links.
Qed.

Lemma click_without_href_throws_witness :
  let s := run [RemoveAttribute 1 "href"] (init sample_page) in
  1 ∈ querySelectorAll link_selector sample_page
  ∧ get_attribute sample_page 1 "href" = Some "/about"
  ∧ get_attribute (dom s) 1 "href" = None
  ∧ step (Click 1) s = (s, {| default_prevented := false; uncaught := [TypeError] |}).
Proof.
  intros s.
  assert (H1 : 1 ∈ querySelectorAll link_selector sample_page) by compute_done.
  assert (H2 : get_attribute (dom s) 1 "href" = None) by reflexivity.
  split; [exact H1|]. split; [reflexivity|]. split; [exact H2|].
  exact (click_without_href_throws sample_page [RemoveAttribute 1 "href"] 1 H1 H2).
Defined.

(** ** The href test, by the shape of the string *)

Lemma startsWith_app (h p : string) :
  startsWith h p = true ↔ ∃ r, h = String.append p r.
Proof.
  revert h. induction p as [|a p IH]; intros h.
  - rewrite startsWith_nil. split; [|done]. intros _. by exists h.
  - destruct h as [|b h]; [split; [done|by intros (r & ?)]|].
    rewrite startsWith_cons. destruct (ascii_dec a b) as [<-|Hne].
    + rewrite IH. split; intros (r & Hr); exists r.
      * by rewrite Hr.
      * change (String a h = String a (String.append p r)) in Hr. congruence.
    + split; [done|]. intros (r & Hr).
      change (String b h = String a (String.append p r)) in Hr. congruence.
Qed.

(** X7. An href escapes the interception exactly when it is the four
    characters "http" followed by anything: "http" itself and "httpfoo" do,
    while "HTTP://…", "//host/path" and "ftp://…" do not. *)
Theorem external_iff_http_prefix (h : string) :
  is_internal h = false ↔ ∃ r, h = String.append "http" r.
Proof.
  rewrite is_internal_not_http, <- startsWith_app. unfold not_http.
  by destruct (startsWith h "http").
Qed.

(** ** Navigations and clicks *)

Lemma click_request (s : page) (i : node) :
  NoDup (links s) →
  timers (step (Click i) s).1
  = timers s ++ ((λ h, ((clock s + 500)%N, Navigate h)) <$> request s (Click i))
  ∧ navigations (step (Click i) s).1 = navigations s.
Proof.
  intros Hnd. unfold request, request_at.
  destruct (decide (i ∈ links s)) as [Hi|Hi].
  - rewrite (bool_decide_eq_true_2 _ Hi).
    destruct (get_attribute (dom s) i "href") as [h|] eqn:Hh.
    + destruct (is_internal h) eqn:Hint.
      * destruct (transitionPreloader s) as [o|] eqn:Ho.
        -- by rewrite (click_internal_overlay s i Hnd Hi h o Hh Hint Ho).
        -- rewrite (click_internal_no_overlay s i Hnd Hi h Hh Hint Ho). simpl.
           by rewrite app_nil_r.
      * rewrite (click_external s i Hnd Hi h Hh Hint). simpl.
        destruct (transitionPreloader s); by rewrite app_nil_r.
    + rewrite (click_null_href s i Hnd Hi Hh). simpl. by rewrite app_nil_r.
  - rewrite (click_no_listener s i Hi), (bool_decide_eq_false_2 _ Hi). simpl.
    destruct (get_attribute (dom s) i "href"), (transitionPreloader s);
      by rewrite app_nil_r.
Qed.

(** In a queue kept in due order, the timers that are due are the front of
    the queue. *)
Lemma due_timers_are_front (now : N) (l : list timer) :
  StronglySorted earlier l →
  filter (is_due now) l ++ filter (λ t, ¬ is_due now t) l = l.
Proof.
  induction 1 as [|t l Hl IH Ht]; [done|].
  destruct (decide (is_due now t)) as [Hd|Hd].
  - rewrite filter_cons_True by done. rewrite (filter_cons_False _ t l) by tauto.
    simpl. by rewrite IH.
  - assert (Hall : Forall (λ x, ¬ is_due now x) l).
    { apply Forall_forall. intros x Hx Hdx.
      apply (proj1 (Forall_forall _ _) Ht) in Hx.
      unfold is_due, earlier in *. lia. }
    rewrite filter_cons_False by done. rewrite filter_cons_True by done.
    rewrite (filter_none (is_due now) l Hall). simpl. f_equal.
    by apply filter_all.
Qed.

Lemma requested_snoc (tr : list event) (ev : event) (s : page) :
  requested (tr ++ [ev]) s = requested tr s ++ request (run tr s) ev.
Proof.
  revert s. induction tr as [|e tr IH]; intros s.
  - simpl. by rewrite app_nil_r.
  - rewrite <- app_comm_cons. cbn [requested]. rewrite IH, run_cons.
    by rewrite app_assoc.
Qed.

Lemma targets_scheduled (now : N) (l : list string) :
  targets ((λ h, (now, Navigate h)) <$> l) = l.
Proof. unfold targets. rewrite <- list_fmap_compose. by rewrite list_fmap_id. Qed.

(** X4. At every moment, the values assigned so far to
    [window.location.href], followed by the targets of the timers still
    pending, are the hrefs of the clicks that were handled to the end, in
    the order of those clicks (a click counts once for each matched anchor
    on its propagation path, the element clicked or an ancestor of it, whose
    listener ran to the end): no navigation is lost, repeated, reordered or
    made up. *)
Theorem navigations_follow_clicks (d : document) (tr : list event) :
  let s := run tr (init d) in
  navigations s ++ targets (timers s) = requested tr (init d).
Proof.
  induction tr as [|ev tr IH] using rev_ind; [done|]. simpl in *.
  rewrite requested_snoc, run_snoc, <- IH.
  assert (Hnd := reachable_NoDup d tr).
  destruct ev as [i| |ms|n k v|n k|path].
  - destruct (click_request _ i Hnd) as (-> & ->).
    unfold targets at 1. rewrite fmap_app. fold (targets (timers (run tr (init d)))).
    rewrite (targets_scheduled (clock (run tr (init d)) + 500)%N).
    by rewrite !app_assoc.
  - simpl request. rewrite app_nil_r.
    by destruct (load_cases (run tr (init d))) as [(_ & ->)|(o & _ & ->)].
  - simpl request. rewrite app_nil_r, elapse_step. simpl.
    rewrite <- app_assoc. f_equal. unfold targets. rewrite <- fmap_app. f_equal.
    apply due_timers_are_front, (timers_in_due_order d tr).
  - simpl. rewrite app_nil_r. unfold edit_attributes. by case_bool_decide.
  - simpl. rewrite app_nil_r. unfold edit_attributes. by case_bool_decide.
  - destruct (clickat_spec _ path Hnd) as (_ & _ & _ & -> & _ & -> & _).
    unfold targets at 1. rewrite fmap_app. fold (targets (timers (run tr (init d)))).
    rewrite (targets_scheduled (clock (run tr (init d)) + 500)%N).
    by rewrite !app_assoc.
Qed.

(** Two clicks on different links, 100 ms apart, then a second passes. *)
Example navigations_in_click_order :
  let d := [overlay_div; anchor "/work"; anchor "/about"] in
  navigations (run [Click 2; Elapse 100; Click 1; Load; Elapse 1000] (init d))
  = ["/about"; "/work"]
  ∧ requested [Click 2; Elapse 100; Click 1; Load; Elapse 1000] (init d)
    = ["/about"; "/work"].
Proof. vm_compute. by split. Qed.

(** X5. What changes the timer queue and the location: a timer joins the
    queue only at an intercepted click (dispatched at a matched anchor or at
    a descendant of one), for that anchor's href and due 500 ms later; a
    timer leaves the queue only when time passes and it is due
    (nothing cancels one: not the load event, not another click, not an
    edit of the anchor); and the location is assigned only when time passes
    and a pending timer is due, never at a click or a load event. *)
Theorem timers_change_only_by_click_and_time (d : document) (tr : list event)
    (ev : event) :
  let s := run tr (init d) in
  let s' := (step ev s).1 in
  (∀ t, t ∈ timers s' → t ∉ timers s →
        ∃ i h, reaches ev i ∧ qualifying s i h ∧ t = ((clock s + 500)%N, Navigate h))
  ∧ (∀ t, t ∈ timers s → t ∉ timers s' →
          ∃ ms, ev = Elapse ms ∧ (t.1 ≤ clock s + ms)%N)
  ∧ (navigations s' ≠ navigations s →
     ∃ ms t, ev = Elapse ms ∧ t ∈ timers s ∧ (t.1 ≤ clock s + ms)%N).
Proof.
  intros s s'. assert (Hnd : NoDup (links s)) by apply reachable_NoDup.
  unfold s'. destruct ev as [i| |ms|n k v|n k|path].
  - destruct (click_cases s i Hnd) as [(r & -> & _)|(o & h & Hi & Hh & Hint & _ & ->)];
      simpl; [done|]. split; [|split; [|done]].
    + intros t [?| ->%list_elem_of_singleton]%elem_of_app Hnot; [done|].
      by exists i, h.
    + intros t Ht Hnot. destruct Hnot. apply elem_of_app. by left.
  - by destruct (load_cases s) as [(_ & ->)|(o & _ & ->)].
  - rewrite elapse_step. simpl. split; [|split].
    + intros t [_ Ht]%list_elem_of_filter Hnot. done.
    + intros t Ht Hnot. exists ms. split; [done|].
      destruct (decide (is_due (clock s + ms)%N t)) as [Hd|Hd]; [done|].
      destruct Hnot. by apply list_elem_of_filter.
    + intros Hne.
      destruct (filter (is_due (clock s + ms)%N) (timers s)) as [|t l] eqn:Hf.
      * simpl in Hne. by rewrite app_nil_r in Hne.
      * assert (Ht : t ∈ filter (is_due (clock s + ms)%N) (timers s))
          by (rewrite Hf; by left).
        apply list_elem_of_filter in Ht as [Hd Ht]. by exists ms, t.
  - simpl. unfold edit_attributes. by case_bool_decide.
  - simpl. unfold edit_attributes. by case_bool_decide.
  - destruct (clickat_spec s path Hnd) as (_ & _ & _ & Hn & _ & Ht & _).
    rewrite Ht, Hn. split; [|split; [|done]].
    + intros t [?|(h & -> & Hh)%list_elem_of_fmap]%elem_of_app Hnot; [done|].
      destruct (request_qualifying s path h Hh) as (i & Hi & Hq).
      by exists i, h.
    + intros t Ht' Hnot. destruct Hnot. apply elem_of_app. by left.
Qed.


(** ** A click, then the load event *)

Lemma tokens_remove_add (tok : string) (l : list string) :
  tokens_remove tok (tokens_add tok l) = tokens_remove tok l.
Proof. apply tokens_add_others. Qed.

Lemma tokens_remove_absent (tok : string) (l : list string) :
  tok ∉ l → tokens_remove tok l = l.
Proof.
  intros H. apply filter_all, Forall_forall. by intros c Hc ->.
Qed.

Lemma unmark_marked (o : node) (d : document) :
  alter (with_classList (tokens_remove marker)) o
    (alter (with_classList (tokens_add marker)) o d)
  = alter (with_classList (tokens_remove marker)) o d.
Proof.
  apply list_eq. intros j. destruct (decide (o = j)) as [->|Hne].
  - rewrite !list_lookup_alter_eq. destruct (d !! j) as [[t a c]|]; simpl; [|done].
    unfold with_classList; simpl. by rewrite tokens_remove_add.
  - by rewrite !list_lookup_alter_ne.
Qed.

Lemma unmark_unmarked (o : node) (d : document) :
  has_class d o marker = false → o < length d →
  alter (with_classList (tokens_remove marker)) o d = d.
Proof.
  intros Hc [e He]%lookup_lt_is_Some. apply list_eq. intros j.
  destruct (decide (o = j)) as [<-|Hne]; [|by rewrite list_lookup_alter_ne].
  rewrite list_lookup_alter_eq, He. simpl. f_equal.
  unfold has_class in Hc. rewrite He in Hc. apply bool_decide_eq_false in Hc.
  destruct e as [t a c]. unfold with_classList; simpl in *.
  by rewrite tokens_remove_absent.
Qed.

(** X6. On a page with the overlay, an intercepted click followed by the
    load event leaves the document as the load event alone would have, and
    exactly as it was if the overlay was unmarked before the click; the
    timer of the click stays pending all the same. *)
Theorem click_then_load (d : document) (tr : list event) (i o : node) (h : string) :
  let s := run tr (init d) in
  querySelector overlay_selector d = Some o →
  qualifying s i h →
  dom (run [Click i; Load] s) = dom (step Load s).1
  ∧ (has_class (dom s) o marker = false → dom (run [Click i; Load] s) = dom s)
  ∧ timers (run [Click i; Load] s) = timers s ++ [((clock s + 500)%N, Navigate h)]
  ∧ reports [Click i; Load] s
    = [{| default_prevented := true; uncaught := [] |};
       {| default_prevented := false; uncaught := [] |}].
Proof.
  intros s Hq Hi.
  assert (Ho : transitionPreloader s = Some o) by (unfold s; by rewrite reachable_overlay).
  assert (Hnd : NoDup (links s)) by apply reachable_NoDup.
  assert (Hlt : o < length (dom s)) by by apply overlay_in_document.
  assert (Hstep := burst_click s o Hnd Ho s i h (settled_refl s) Hi).
  assert (Hload : step Load (intercepted o h s)
                  = (unmarked o (intercepted o h s),
                     {| default_prevented := false; uncaught := [] |}))
    by by apply load_overlay.
  rewrite !run_cons. cbn [reports]. rewrite Hstep. cbn [fst snd]. rewrite Hload.
  rewrite (load_overlay s o Ho). cbn [fst snd run foldl]. simpl.
  rewrite unmark_marked. repeat split; try done.
  intros Hc. by apply unmark_unmarked.
Qed.

Lemma click_then_load_witness :
  let s := run [Elapse 10] (init sample_page) in
  (querySelector overlay_selector sample_page = Some 0 ∧ qualifying s 1 "/about")
  ∧ has_class (dom s) 0 marker = false
  ∧ dom (run [Click 1; Load] s) = dom s
  ∧ timers (run [Click 1; Load] s) = [(510%N, Navigate "/about")].
Proof.
  intros s.
  assert (H0 : querySelector overlay_selector sample_page = Some 0) by reflexivity.
  assert (Hq : qualifying s 1 "/about") by (repeat split; compute_done).
  assert (Hc : has_class (dom s) 0 marker = false) by reflexivity.
  destruct (click_then_load sample_page [Elapse 10] 1 0 "/about" H0 Hq)
    as (_ & B & C & _).
  split; [exact (conj H0 Hq)|]. split; [exact Hc|]. split; [exact (B Hc)|exact C].
Defined.

Lemma marker_kept (s0 : page) (tr2 : list event) :
  NoDup (links s0) → overlay_active s0 = true → Load ∉ tr2 →
  Forall (λ ev, edits_class ev = false) tr2 →
  overlay_active (run tr2 s0) = true.
Proof.
  intros Hnd H0. induction tr2 as [|ev tr2 IH] using rev_ind; intros Hload Hcls; [done|].
  apply not_elem_of_app in Hload as [Hload Hev].
  apply Forall_app in Hcls as [Hcls [Hc _]%Forall_cons].
  specialize (IH Hload Hcls). rewrite run_snoc.
  destruct (overlay_active (step ev (run tr2 s0)).1) eqn:Hact; [done|].
  assert (Hnd' : NoDup (links (run tr2 s0))).
  { by destruct (run_constants tr2 s0 Hnd) as (-> & _). }
  rewrite (marker_cleared_by_load ev _ Hnd' Hc IH Hact) in Hev.
  destruct Hev. by apply list_elem_of_singleton.
Qed.

Lemma clickat_marks (s : page) (path : list node) (i o : node) (h : string) :
  NoDup (links s) → transitionPreloader s = Some o → o < length (dom s) →
  qualifying s i h → i ∈ path →
  overlay_active (step (ClickAt path) s).1 = true.
Proof.
  intros Hnd Ho Hlt (Hi & Hh & Hint) Hp.
  destruct (clickat_spec s path Hnd) as (_ & Htp & _ & _ & _ & _ & Hd).
  unfold overlay_active. rewrite Htp, Ho, Hd, Ho.
  assert (Hin : h ∈ request s (ClickAt path)).
  { simpl. apply list_elem_of_bind. exists i. split; [|done].
    unfold request_at. rewrite Hh, Ho, (bool_decide_eq_true_2 _ Hi), Hint.
    by apply list_elem_of_singleton. }
  destruct (request s (ClickAt path)) as [|h' hs]; [by apply elem_of_nil in Hin|].
  simpl. by apply has_class_added.
Qed.

(** X9. On a page with the overlay, once a click has been intercepted
    (dispatched at a matched anchor with an internal href, or at a
    descendant of one) the overlay carries the marker until the next load
    event, whatever else the controller handles in between and whatever
    attributes other than [class] are edited: timers running, further
    clicks of any kind, edits of href or target. *)
Theorem marker_stays_until_load (d : document) (tr tr2 : list event) (ev : event)
    (i o : node) (h : string) :
  let s := run tr (init d) in
  querySelector overlay_selector d = Some o →
  qualifying s i h →
  reaches ev i →
  Load ∉ tr2 →
  Forall (λ e, edits_class e = false) tr2 →
  overlay_active (run (ev :: tr2) s) = true.
Proof.
  intros s Hq Hi Hr Hload Hcls.
  assert (Ho : transitionPreloader s = Some o) by (unfold s; by rewrite reachable_overlay).
  assert (Hnd : NoDup (links s)) by apply reachable_NoDup.
  assert (Hlt : o < length (dom s)) by by apply overlay_in_document.
  rewrite run_cons. apply marker_kept; [|  |done|done].
  - by destruct (step_constants ev s Hnd) as (-> & _).
  - destruct ev as [j| |ms|n k v|n k|path]; try done.
    + simpl in Hr. subst j.
      rewrite (burst_click s o Hnd Ho s i h (settled_refl s) Hi).
      by apply overlay_active_intercepted.
    + by apply (clickat_marks s path i o h).
Qed.

Lemma marker_stays_until_load_witness :
  let s := run [] (init sample_page) in
  let tr2 := [Elapse 2000; Click 3; SetAttribute 1 "href" "https://example.com";
              Click 1; RemoveAttribute 1 "href"; ClickAt [2; 1]] in
  (querySelector overlay_selector sample_page = Some 0
   ∧ qualifying s 1 "/about" ∧ reaches (ClickAt [3; 1]) 1 ∧ (Load ∉ tr2)
   ∧ Forall (λ e, edits_class e = false) tr2)
  ∧ overlay_active (run (ClickAt [3; 1] :: tr2) s) = true.
Proof.
  intros s tr2.
  assert (H0 : querySelector overlay_selector sample_page = Some 0) by reflexivity.
  assert (Hq : qualifying s 1 "/about") by (repeat split; compute_done).
  assert (Hr : reaches (ClickAt [3; 1]) 1) by (simpl; compute_done).
  assert (Hl : Load ∉ tr2).
  { unfold tr2. repeat (apply not_elem_of_cons; split; [discriminate|]).
    apply not_elem_of_nil. }
  assert (Hc : Forall (λ e, edits_class e = false) tr2) by (repeat constructor).
  split; [exact (conj H0 (conj Hq (conj Hr (conj Hl Hc))))|].
  exact (marker_stays_until_load sample_page [] tr2 (ClickAt [3; 1]) 1 0 "/about"
           H0 Hq Hr Hl Hc).
Defined.

(** An edit of the overlay's [class] attribute between the click and the
    load event takes the marker off. *)
Example class_edit_clears_marker :
  overlay_active (run [Click 1; SetAttribute 0 "Class" "transition-preloader"]
                    (init sample_page)) = false
  ∧ classList <$> dom (run [Click 1; SetAttribute 0 "Class" "transition-preloader"]
                         (init sample_page))
    = [["transition-preloader"]; []; []; []].
Proof. vm_compute. by split. Qed.

(** * Properties of the usage analyzer *)

Lemma replay_snoc (ops : list usage) (op : usage) (u : usageData) :
  replay (ops ++ [op]) u = note op (replay ops u).
Proof. unfold replay. by rewrite foldl_app. Qed.

Lemma calls_of_snoc (prop : string) (t0 : Z) (ops : list usage) (op : usage) :
  calls_of prop t0 (ops ++ [op]) = calls_of prop t0 ops ++ calls_of prop t0 [op].
Proof.
  induction ops as [|o ops IH]; [done|]. rewrite <- app_comm_cons.
  destruct o as [k|p now args trace rs|ty now trace tg|now]; cbn [calls_of]; try done.
  case_bool_decide; [|done]. by rewrite IH.
Qed.

Lemma note_startTime (op : usage) (u : usageData) : startTime (note op u) = startTime u.
Proof.
  destruct op as [[name|]|p now args trace rs|ty now trace tg|now]; try done.
  simpl. unfold wrapper_call. by destruct (push_under _ _ _).
Qed.

Lemma replay_startTime (ops : list usage) (u : usageData) :
  startTime (replay ops u) = startTime u.
Proof.
  induction ops as [|op ops IH] using rev_ind; [done|].
  by rewrite replay_snoc, note_startTime.
Qed.

Lemma as_property_snoc {A} (l : list A) (x : A) : as_property (l ++ [x]) = Some (l ++ [x]).
Proof. by destruct l. Qed.

(** What [functionCalls] holds after a history that started from an object
    without properties. *)
Lemma functionCalls_replay (ops : list usage) (u0 : usageData) (prop : string) :
  functionCalls u0 = ∅ →
  functionCalls (replay ops u0) !! prop
  = if bool_decide (prop ∈ Object_prototype) then None
    else as_property (calls_of prop (startTime u0) ops).
Proof.
  intros H0. revert prop. induction ops as [|op ops IH] using rev_ind; intros prop.
  - simpl. rewrite H0, lookup_empty. by case_bool_decide.
  - rewrite replay_snoc, calls_of_snoc.
    destruct op as [[name|]|p now args trace rs|ty now trace tg|now];
      try (simpl; rewrite app_nil_r; by apply IH).
    cbn [note calls_of]. unfold wrapper_call, push_under.
    rewrite replay_startTime. rewrite (IH p).
    destruct (decide (p ∈ Object_prototype)) as [Hp|Hp].
    + rewrite (bool_decide_eq_true_2 _ Hp). simpl. rewrite IH.
      case_bool_decide; [done|]. rewrite bool_decide_eq_false_2 by congruence.
      by rewrite app_nil_r.
    + rewrite (bool_decide_eq_false_2 _ Hp).
      destruct (decide (p = prop)) as [->|Hne].
      * rewrite (bool_decide_eq_true_2 _ eq_refl), (bool_decide_eq_false_2 _ Hp).
        rewrite as_property_snoc.
        destruct (calls_of prop (startTime u0) ops) as [|c l]; simpl;
          by rewrite lookup_insert_eq.
      * rewrite (bool_decide_eq_false_2 _ Hne), app_nil_r.
        destruct (as_property (calls_of p (startTime u0) ops)); simpl;
          rewrite lookup_insert_ne by done; apply IH.
Qed.

Lemma count_calls_insert_new (m : gmap string (list call.t)) (k : string)
    (l : list call.t) :
  m !! k = None → count_calls (<[k := l]> m) = count_calls m + length l.
Proof.
  intros Hk. unfold count_calls. rewrite map_fold_insert_L; [done| |done].
  intros. lia.
Qed.

Lemma count_calls_insert_old (m : gmap string (list call.t)) (k : string)
    (l0 l : list call.t) :
  m !! k = Some l0 →
  count_calls (<[k := l]> m) + length l0 = count_calls m + length l.
Proof.
  intros Hk.
  rewrite <- (insert_delete_eq m k l).
  rewrite count_calls_insert_new by apply lookup_delete_eq.
  unfold count_calls at 2.
  rewrite (map_fold_delete_L _ _ k l0 m); [fold (count_calls (delete k m)); lia| |done].
  intros. lia.
Qed.

Lemma count_calls_replay (ops : list usage) (u0 : usageData) :
  functionCalls u0 = ∅ →
  count_calls (functionCalls (replay ops u0)) = completed_calls ops.
Proof.
  intros H0. induction ops as [|op ops IH] using rev_ind.
  - simpl. by rewrite H0.
  - rewrite replay_snoc.
    assert (Hc : ∀ op', completed_calls (ops ++ [op'])
                        = completed_calls ops + completed_calls [op']).
    { intros op'. clear. induction ops as [|o ops IH]; [done|].
      rewrite <- app_comm_cons.
      destruct o as [k|p now args trace rs|ty now trace tg|now]; cbn [completed_calls];
        try done. case_bool_decide; [done|]. rewrite IH. done. }
    rewrite Hc.
    destruct op as [[name|]|p now args trace rs|ty now trace tg|now];
      try (simpl; rewrite IH; lia).
    cbn [note completed_calls]. unfold wrapper_call, push_under.
    rewrite (functionCalls_replay ops u0 p H0).
    destruct (decide (p ∈ Object_prototype)) as [Hp|Hp].
    + rewrite !(bool_decide_eq_true_2 _ Hp). simpl. rewrite IH. lia.
    + rewrite !(bool_decide_eq_false_2 _ Hp).
      assert (Hl := functionCalls_replay ops u0 p H0).
      rewrite (bool_decide_eq_false_2 _ Hp) in Hl.
      destruct (as_property (calls_of p (startTime u0) ops)) as [l|] eqn:Hprop; simpl.
      * assert (H := count_calls_insert_old _ p l
                       (l ++ [{| call.timestamp := now;
                                 call.relativeTime := (now - startTime (replay ops u0))%Z;
                                 call.argTypes := args; call.stack := trace;
                                 call.pagePhase := rs |}]) Hl).
        rewrite length_app in H. simpl in H. lia.
      * rewrite count_calls_insert_new by done. simpl. lia.
Qed.

Lemma listens_of_snoc (t0 : Z) (ops : list usage) (op : usage) :
  listens_of t0 (ops ++ [op]) = listens_of t0 ops ++ listens_of t0 [op].
Proof.
  induction ops as [|o ops IH]; [done|]. rewrite <- app_comm_cons.
  destruct o as [k|p now args trace rs|ty now trace tg|now]; cbn [listens_of]; try done.
  by rewrite IH.
Qed.

Lemma events_replay (ops : list usage) (u0 : usageData) :
  events (replay ops u0) = events u0 ++ listens_of (startTime u0) ops.
Proof.
  induction ops as [|op ops IH] using rev_ind; [by rewrite app_nil_r|].
  rewrite replay_snoc, listens_of_snoc.
  destruct op as [[name|]|p now args trace rs|ty now trace tg|now];
    try (simpl; rewrite app_nil_r; by apply IH).
  - simpl. unfold wrapper_call. destruct (push_under _ _ _); simpl;
      rewrite app_nil_r; apply IH.
  - simpl. rewrite IH, replay_startTime. by rewrite app_assoc.
Qed.

Lemma Set_add_elem (x y : string) (l : list string) :
  y ∈ Set_add x l ↔ y = x ∨ y ∈ l.
Proof.
  unfold Set_add. case_bool_decide.
  - split; [by right|]. by intros [->|?].
  - rewrite elem_of_app, list_elem_of_singleton. tauto.
Qed.

Lemma Set_add_NoDup (x : string) (l : list string) : NoDup l → NoDup (Set_add x l).
Proof.
  intros Hl. unfold Set_add. case_bool_decide; [done|].
  apply NoDup_app. split; [done|]. split; [|apply NoDup_singleton].
  intros y Hy ->%list_elem_of_singleton. done.
Qed.

Lemma reads_of_snoc (ops : list usage) (op : usage) :
  reads_of (ops ++ [op]) = reads_of ops ++ reads_of [op].
Proof.
  induction ops as [|o ops IH]; [done|]. rewrite <- app_comm_cons.
  destruct o as [[name|]|p now args trace rs|ty now trace tg|now]; cbn [reads_of];
    try done. by rewrite IH.
Qed.

Lemma groups_of_push (seen : list listener.t) (g : gmap string (list listener.t))
    (e : listener.t) :
  groups_of seen g →
  Forall (λ x, listener.type x ∉ Object_prototype) seen →
  (listener.type e ∈ Object_prototype → push_under (listener.type e) e g = Throw TypeError)
  ∧ (listener.type e ∉ Object_prototype →
     ∃ g', push_under (listener.type e) e g = Normal g' ∧ groups_of (seen ++ [e]) g').
Proof.
  intros Hg Hseen. unfold push_under. rewrite (Hg (listener.type e)). split.
  - intros He. rewrite (bool_decide_eq_true_2 _ He).
    rewrite filter_none; [done|].
    apply Forall_forall. intros x Hx Heq.
    apply (proj1 (Forall_forall _ _) Hseen) in Hx. congruence.
  - intros He. rewrite (bool_decide_eq_false_2 _ He).
    set (same := filter (λ x, listener.type x = listener.type e) seen).
    exists (<[listener.type e := same ++ [e]]> g). split; [by destruct same|].
    intros t. rewrite filter_app. destruct (decide (listener.type e = t)) as [<-|Hne].
    + rewrite lookup_insert_eq, filter_cons_True, filter_nil by done.
      fold same. by rewrite as_property_snoc.
    + rewrite lookup_insert_ne, filter_cons_False, filter_nil by done.
      rewrite app_nil_r. apply Hg.
Qed.

Lemma group_events_spec (evs seen : list listener.t) (g : gmap string (list listener.t)) :
  groups_of seen g →
  Forall (λ x, listener.type x ∉ Object_prototype) seen →
  (Exists (λ x, listener.type x ∈ Object_prototype) evs →
   group_events evs g = Throw TypeError)
  ∧ (Forall (λ x, listener.type x ∉ Object_prototype) evs →
     ∃ g', group_events evs g = Normal g' ∧ groups_of (seen ++ evs) g').
Proof.
  revert seen g. induction evs as [|e evs IH]; intros seen g Hg Hseen.
  - split; [by intros ?%Exists_nil|]. intros _. exists g. by rewrite app_nil_r.
  - destruct (groups_of_push seen g e Hg Hseen) as (Hbad & Hgood).
    destruct (decide (listener.type e ∈ Object_prototype)) as [He|He].
    + split.
      * intros _. simpl. by rewrite (Hbad He).
      * intros [? _]%Forall_cons. done.
    + destruct (Hgood He) as (g' & Hpush & Hg'). simpl. rewrite Hpush.
      assert (Hseen' : Forall (λ x, listener.type x ∉ Object_prototype) (seen ++ [e])).
      { apply Forall_app. split; [done|]. by constructor. }
      destruct (IH (seen ++ [e]) g' Hg' Hseen') as (IHbad & IHgood).
      rewrite <- app_assoc in IHgood. split.
      * intros [?|?]%Exists_cons; [done|]. by apply IHbad.
      * intros [_ ?]%Forall_cons. by apply IHgood.
Qed.

Lemma analyzer_start_fields (t0 t1 : Z) (trace : list string) :
  functionCalls (analyzer_start t0 t1 trace) = ∅
  ∧ startTime (analyzer_start t0 t1 trace) = t0
  ∧ events (analyzer_start t0 t1 trace) = [own_listener t0 t1 trace]
  ∧ propertyAccess (analyzer_start t0 t1 trace) = [].
Proof. done. Qed.

Lemma calls_never_empty (t0 t1 : Z) (trace : list string) (ops : list usage) :
  map_Forall (λ _ (calls : list call.t), 0 < length calls)
    (functionCalls (replay ops (analyzer_start t0 t1 trace))).
Proof.
  intros k calls Hk. rewrite functionCalls_replay in Hk by done.
  case_bool_decide; [done|].
  destruct (calls_of k _ ops); simplify_eq/=. lia.
Qed.

(** X10. After any history, the calls noted under a name are the notes of
    all the calls made through the wrapper of that name, oldest first, and a
    name has an entry only once it has been called; except that a function
    named like a member of [Object.prototype] is never noted: every call of
    its wrapper throws a [TypeError] before the original is reached and
    leaves [usageData] as it was. *)
Theorem calls_are_noted (t0 t1 : Z) (trace : list string) (ops : list usage)
    (prop : string) :
  let u := replay ops (analyzer_start t0 t1 trace) in
  functionCalls u !! prop
  = (if bool_decide (prop ∈ Object_prototype) then None
     else as_property (calls_of prop t0 ops))
  ∧ (prop ∈ Object_prototype →
     ∀ now args tr rs, wrapper_call prop now args tr rs u = (u, Throw TypeError))
  ∧ (prop ∉ Object_prototype →
     ∀ now args tr rs, (wrapper_call prop now args tr rs u).2 = Normal ()).
Proof.
  intros u.
  assert (H : functionCalls u !! prop
              = if bool_decide (prop ∈ Object_prototype) then None
                else as_property (calls_of prop t0 ops))
    by by apply (functionCalls_replay ops (analyzer_start t0 t1 trace)).
  split; [done|]. split; intros Hp now args tr rs; unfold wrapper_call, push_under;
    rewrite H.
  - by rewrite !(bool_decide_eq_true_2 _ Hp).
  - rewrite !(bool_decide_eq_false_2 _ Hp). by destruct (as_property _).
Qed.

Example calls_noted_example :
  let ops := [Get (StringKey "ready"); Invoke "ready" 30 ["function"] ["at a.js:1"] "loading";
              Get (StringKey "toString"); Invoke "toString" 31 [] [] "loading";
              Invoke "ready" 45 [] [] "interactive"] in
  let u := replay ops (analyzer_start 10 12 []) in
  call.relativeTime <$> default [] (functionCalls u !! "ready") = [20%Z; 35%Z]
  ∧ functionCalls u !! "toString" = None
  ∧ propertyAccess u = ["ready"; "toString"]
  ∧ count_calls (functionCalls u) = 2.
Proof. vm_compute. repeat split. Qed.

Lemma own_listener_type (t0 t1 : Z) (trace : list string) :
  listener.type (own_listener t0 t1 trace) ∉ Object_prototype.
Proof. simpl. compute_done. Qed.

(** The report after a history: it throws when some listener was added for
    a type named like a member of [Object.prototype], and otherwise returns
    the data of lines 155 to 169 and the groups of lines 132 to 138. *)
Lemma printUsageReport_replay (t0 t1 : Z) (trace : list string) (ops : list usage)
    (now : Z) (definedFunctions : list string) :
  let u := replay ops (analyzer_start t0 t1 trace) in
  (Exists (λ e, listener.type e ∈ Object_prototype) (listens_of t0 ops) →
   printUsageReport now definedFunctions u = Throw TypeError)
  ∧ (Forall (λ e, listener.type e ∉ Object_prototype) (listens_of t0 ops) →
     ∃ groups,
       groups_of (own_listener t0 t1 trace :: listens_of t0 ops) groups
       ∧ printUsageReport now definedFunctions u
         = Normal
             {| exported_summary :=
                  {| summary.totalTime := (now - t0)%Z;
                     summary.pageLoadTime := pageLoadTime u;
                     summary.totalFunctionCalls := completed_calls ops;
                     summary.totalEventListeners := S (length (listens_of t0 ops));
                     summary.unusedFunctions :=
                       filter (λ f, functionCalls u !! f = None) definedFunctions |};
                exported_details :=
                  {| details.functionCalls := functionCalls u;
                     details.propertyAccess := propertyAccess u;
                     details.events := own_listener t0 t1 trace :: listens_of t0 ops |};
                eventsByType := groups |}).
Proof.
  intros u. unfold printUsageReport.
  rewrite (bool_decide_eq_true_2 _ (calls_never_empty t0 t1 trace ops)). simpl.
  assert (Hev : events u = own_listener t0 t1 trace :: listens_of t0 ops)
    by apply (events_replay ops (analyzer_start t0 t1 trace)).
  assert (Hst : startTime u = t0) by apply replay_startTime.
  assert (Hcount : count_calls (functionCalls u) = completed_calls ops)
    by by apply count_calls_replay.
  destruct (group_events_spec (events u) [] ∅) as (Hbad & Hgood);
    [by intros t|constructor|].
  rewrite Hev in Hbad, Hgood. split.
  - intros Hex. rewrite Hev, Hbad; [done|]. by apply Exists_cons_tl.
  - intros Hall. destruct Hgood as (g & Hg & Hgroups).
    { constructor; [apply own_listener_type|done]. }
    exists g. split; [done|]. rewrite Hev, Hg, Hst, Hcount. done.
Qed.

(** X11. When no listener was added for a type named like a member of
    [Object.prototype], the report of any history succeeds, and in it the
    total of function calls is the number of calls that reached their
    original function, the total of listeners is the number of
    registrations plus the script's own [load] listener, and the total time
    is counted from the start of the script. *)
Theorem report_totals (t0 t1 : Z) (trace : list string) (ops : list usage)
    (now : Z) (definedFunctions : list string) :
  let u := replay ops (analyzer_start t0 t1 trace) in
  Forall (λ e, listener.type e ∉ Object_prototype) (listens_of t0 ops) →
  ∃ r, printUsageReport now definedFunctions u = Normal r
       ∧ summary.totalFunctionCalls (exported_summary r) = completed_calls ops
       ∧ summary.totalEventListeners (exported_summary r) = S (length (listens_of t0 ops))
       ∧ summary.totalTime (exported_summary r) = (now - t0)%Z
       ∧ details.events (exported_details r)
         = own_listener t0 t1 trace :: listens_of t0 ops.
Proof.
  intros u Hall.
  destruct (printUsageReport_replay t0 t1 trace ops now definedFunctions)
    as (_ & Hgood).
  destruct (Hgood Hall) as (g & _ & Hr). eexists. split; [exact Hr|]. by repeat split.
Qed.

(** X13. The report throws a [TypeError], and exports nothing, exactly when
    some listener was added for an event type named like a member of
    [Object.prototype] ("constructor", "toString", and so on). *)
Theorem report_throws_iff (t0 t1 : Z) (trace : list string) (ops : list usage)
    (now : Z) (definedFunctions : list string) :
  printUsageReport now definedFunctions (replay ops (analyzer_start t0 t1 trace))
  = Throw TypeError
  ↔ Exists (λ e, listener.type e ∈ Object_prototype) (listens_of t0 ops).
Proof.
  destruct (printUsageReport_replay t0 t1 trace ops now definedFunctions)
    as (Hbad & Hgood).
  split; [|done]. intros Hthrow.
  destruct (decide (Exists (λ e, listener.type e ∈ Object_prototype) (listens_of t0 ops)))
    as [?|Hno]; [done|].
  apply not_Exists_Forall in Hno; [|intros ?; apply _].
  destruct (Hgood Hno) as (g & _ & Hr). simpl in *. congruence.
Qed.

(** X12. In a report that succeeds, the potentially unused functions are
    the defined functions that have no noted call, in the order in which
    they are defined: reading a function through the proxy does not make it
    used, and a function named like a member of [Object.prototype] is
    always listed. *)
Theorem unused_functions (t0 t1 : Z) (trace : list string) (ops : list usage)
    (now : Z) (definedFunctions : list string) (r : usageReport) :
  printUsageReport now definedFunctions (replay ops (analyzer_start t0 t1 trace))
  = Normal r →
  sublist (summary.unusedFunctions (exported_summary r)) definedFunctions
  ∧ ∀ f, f ∈ summary.unusedFunctions (exported_summary r)
         ↔ f ∈ definedFunctions ∧ (f ∈ Object_prototype ∨ calls_of f t0 ops = []).
Proof.
  intros Hr.
  destruct (printUsageReport_replay t0 t1 trace ops now definedFunctions)
    as (Hbad & Hgood).
  destruct (decide (Exists (λ e, listener.type e ∈ Object_prototype) (listens_of t0 ops)))
    as [Hex|Hno]; [rewrite (Hbad Hex) in Hr; done|].
  apply not_Exists_Forall in Hno; [|intros ?; apply _].
  destruct (Hgood Hno) as (g & _ & Hr'). simpl in Hr'. rewrite Hr' in Hr.
  injection Hr as <-. simpl. split; [apply sublist_filter|].
  intros f. rewrite list_elem_of_filter.
  rewrite (functionCalls_replay ops (analyzer_start t0 t1 trace) f eq_refl). simpl.
  split; intros [H1 H2].
  - split; [done|]. case_bool_decide; [by left|]. right.
    by destruct (calls_of f t0 ops).
  - split; [|done]. case_bool_decide; [done|]. destruct H2 as [?| ->]; done.
Qed.

(** X14. In a report that succeeds, the listeners are grouped by type: the
    group under a type holds the noted registrations of that type, oldest
    first, and a type has a group only if a listener was added for it. *)
Theorem listeners_grouped_by_type (t0 t1 : Z) (trace : list string)
    (ops : list usage) (now : Z) (definedFunctions : list string) (r : usageReport) :
  printUsageReport now definedFunctions (replay ops (analyzer_start t0 t1 trace))
  = Normal r →
  ∀ t, eventsByType r !! t
       = as_property (filter (λ e, listener.type e = t)
                        (own_listener t0 t1 trace :: listens_of t0 ops)).
Proof.
  intros Hr.
  destruct (printUsageReport_replay t0 t1 trace ops now definedFunctions)
    as (Hbad & Hgood).
  destruct (decide (Exists (λ e, listener.type e ∈ Object_prototype) (listens_of t0 ops)))
    as [Hex|Hno]; [rewrite (Hbad Hex) in Hr; done|].
  apply not_Exists_Forall in Hno; [|intros ?; apply _].
  destruct (Hgood Hno) as (g & Hg & Hr'). simpl in Hr'. rewrite Hr' in Hr.
  by injection Hr as <-.
Qed.

Lemma sample_usage_listens :
  Forall (λ e, listener.type e ∉ Object_prototype) (listens_of 10 sample_usage).
Proof. repeat constructor; compute_done. Qed.

Lemma report_totals_witness :
  Forall (λ e, listener.type e ∉ Object_prototype) (listens_of 10 sample_usage)
  ∧ ∃ r, printUsageReport 1000 ["ready"; "destroy"; "push"]
           (replay sample_usage (analyzer_start 10 12 [])) = Normal r
         ∧ summary.totalFunctionCalls (exported_summary r) = 3
         ∧ summary.totalEventListeners (exported_summary r) = 3
         ∧ summary.totalTime (exported_summary r) = 990%Z.
Proof.
  split; [exact sample_usage_listens|].
  destruct (report_totals 10 12 [] sample_usage 1000 ["ready"; "destroy"; "push"]
              sample_usage_listens) as (r & Hr & A & B & C & _).
  exists r. repeat split; assumption.
Defined.

Lemma unused_functions_witness :
  ∃ r, printUsageReport 1000 ["ready"; "destroy"; "push"]
         (replay sample_usage (analyzer_start 10 12 [])) = Normal r
       ∧ ("destroy" ∈ summary.unusedFunctions (exported_summary r)
          ↔ "destroy" ∈ ["ready"; "destroy"; "push"]
            ∧ ("destroy" ∈ Object_prototype ∨ calls_of "destroy" 10 sample_usage = [])).
Proof.
  destruct (printUsageReport_replay 10 12 [] sample_usage 1000 ["ready"; "destroy"; "push"])
    as (_ & Hgood).
  destruct (Hgood sample_usage_listens) as (g & _ & Hr).
  eexists. split; [exact Hr|].
  exact (proj2 (unused_functions 10 12 [] sample_usage 1000
                  ["ready"; "destroy"; "push"] _ Hr) "destroy").
Defined.

Lemma listeners_grouped_by_type_witness :
  ∃ r, printUsageReport 1000 ["ready"; "destroy"; "push"]
         (replay sample_usage (analyzer_start 10 12 [])) = Normal r
       ∧ listener.timestamp <$> default [] (eventsByType r !! "click") = [15%Z; 16%Z]
       ∧ listener.timestamp <$> default [] (eventsByType r !! "load") = [12%Z]
       ∧ eventsByType r !! "scroll" = None.
Proof.
  destruct (printUsageReport_replay 10 12 [] sample_usage 1000 ["ready"; "destroy"; "push"])
    as (_ & Hgood).
  destruct (Hgood sample_usage_listens) as (g & _ & Hr).
  eexists. split; [exact Hr|].
  assert (H := listeners_grouped_by_type 10 12 [] sample_usage 1000
                 ["ready"; "destroy"; "push"] _ Hr).
  rewrite (H "click"), (H "load"), (H "scroll"). by repeat split.
Defined.

Lemma propertyAccess_replay (ops : list usage) (u0 : usageData) :
  propertyAccess u0 = [] →
  NoDup (propertyAccess (replay ops u0))
  ∧ ∀ name, name ∈ propertyAccess (replay ops u0) ↔ name ∈ reads_of ops.
Proof.
  intros H0. induction ops as [|op ops IH] using rev_ind.
  - simpl. rewrite H0. split; [constructor|done].
  - rewrite replay_snoc, reads_of_snoc. destruct IH as (Hnd & Hin).
    destruct op as [[name|]|p now args trace rs|ty now trace tg|now]; simpl;
      rewrite ?app_nil_r; try done.
    + split; [by apply Set_add_NoDup|]. intros x.
      rewrite Set_add_elem, elem_of_app, list_elem_of_singleton, Hin. tauto.
    + unfold wrapper_call. by destruct (push_under _ _ _).
Qed.

(** X15. After any history, the accessed properties are the names read
    through the proxy, each listed once; a read by a symbol throws a
    [TypeError] before anything is noted, so it leaves no trace. *)
Theorem property_reads_noted (t0 t1 : Z) (trace : list string) (ops : list usage) :
  let u := replay ops (analyzer_start t0 t1 trace) in
  NoDup (propertyAccess u)
  ∧ (∀ name, name ∈ propertyAccess u ↔ Get (StringKey name) ∈ ops)
  ∧ proxy_get SymbolKey u = (u, Throw TypeError)
  ∧ ∀ name, (proxy_get (StringKey name) u).2 = Normal ()
            ∧ name ∈ propertyAccess (proxy_get (StringKey name) u).1.
Proof.
  intros u.
  destruct (propertyAccess_replay ops (analyzer_start t0 t1 trace) eq_refl) as (Hnd & Hin).
  split; [done|]. split; [|split; [done|]].
  - intros name. unfold u. rewrite Hin. clear.
    induction ops as [|o ops IH]; [by rewrite !elem_of_nil|].
    destruct o as [[n|]|p now args tr rs|ty now tr tg|now]; cbn [reads_of];
      rewrite ?elem_of_cons, IH;
      (split; [intros [->|?]; by auto | intros [[= ->]|?]; by auto])
      || (split; [by right | by intros [?|?]]).
  - intros name. split; [done|]. simpl. apply Set_add_elem. by left.
Qed.
